(** * AirCargoProblem: the STRIPS air cargo planning domain

    A shallow embedding of [my_air_cargo_problems.py]: the grounding of the
    Load / Unload / Fly schemas, the transition model ([actions], [result],
    [goal_test]) and the [h_ignore_preconditions] heuristic, together with
    the properties of the design document that concern them. *)

From Stdlib Require Import String Bool Arith Lia DecimalString DecimalNat List.
Import ListNotations.
Open Scope string_scope.
Open Scope list_scope.

(** ** Errors

    An encoded state is a vector of flags, one per literal of the state map
    (the string of ['T'] and ['F'] of the Python code).  The only operation
    that can fail is decoding a vector whose length is not the one of the
    state map. *)

Inductive Error : Type :=
| StateEncodingError.

Inductive res (A : Type) : Type :=
| Ok (a : A)
| Err (e : Error).

Arguments Ok {A} a.
Arguments Err {A} e.

Definition bind {A B : Type} (m : res A) (k : A -> res B) : res B :=
  match m with
  | Ok a => k a
  | Err e => Err e
  end.

Notation "x <- m ;; k" := (bind m (fun x => k))
  (at level 61, m at next level, right associativity).

(** ** aimacode: expressions, actions and the clause store *)

Module Aima.

(** Modelled from the spec: [aimacode.utils.expr] and its [Expr] class are
    missing.  A literal is a predicate name applied to object identifiers,
    compared by predicate and arguments; [expr("At({}, {})".format(x, y))]
    is [At x y]. *)
Record Expr : Type := mkExpr { op : string; args : list string }.

Definition At (x y : string) : Expr := mkExpr "At" [x; y].
Definition In_ (c p : string) : Expr := mkExpr "In" [c; p].

Fixpoint args_eqb (xs ys : list string) : bool :=
  match xs, ys with
  | [], [] => true
  | x :: xs', y :: ys' => String.eqb x y && args_eqb xs' ys'
  | _, _ => false
  end.

(** Modelled from the spec: [Expr.__eq__] is missing.  Two literals are
    equal when they have the same predicate and the same arguments. *)
Definition Expr_eqb (e1 e2 : Expr) : bool :=
  String.eqb (op e1) (op e2) && args_eqb (args e1) (args e2).

(** Python's [x in xs] on a list of expressions. *)
Fixpoint memb (x : Expr) (xs : list Expr) : bool :=
  match xs with
  | [] => false
  | y :: ys => Expr_eqb y x || memb x ys
  end.

(** [set(xs).issubset(set(ys))]. *)
Definition issubset (xs ys : list Expr) : bool :=
  forallb (fun x => memb x ys) xs.

(** Modelled from the spec: [aimacode.planning.Action] is missing.  A
    grounded action is a name (operator and arguments of the expression it
    is built from) and four lists of literals. *)
Record Action : Type := mkAction {
  name : string;
  action_args : list string;
  precond_pos : list Expr;
  precond_neg : list Expr;
  effect_add : list Expr;
  effect_rem : list Expr
}.

(** Modelled from the spec: the constructor of [Action] is missing.
    [Action(action, [precond_pos, precond_neg], [effect_add, effect_rem])]
    names the action after the expression and stores the four lists. *)
Definition Action_ (action : Expr) (precond effect : list Expr * list Expr)
  : Action :=
  mkAction (op action) (args action)
           (fst precond) (snd precond) (fst effect) (snd effect).

(** Modelled from the spec: [aimacode.logic.PropKB] is missing.  The
    knowledge base is a store of clauses; telling it a conjunction of
    literals asserts every conjunct as a fact. *)
Inductive Sentence : Type :=
| Conj (conjuncts : list Expr).

Record PropKB : Type := mkPropKB { clauses : list Expr }.

(** Modelled from the spec: [PropKB()] is missing; a new knowledge base has
    no clause. *)
Definition PropKB_ : PropKB := mkPropKB [].

(** Modelled from the spec: [PropKB.tell] is missing; the conjuncts of the
    sentence are appended to the clauses. *)
Definition tell (kb : PropKB) (sentence : Sentence) : PropKB :=
  match sentence with
  | Conj cs => mkPropKB (clauses kb ++ cs)
  end.

(** Modelled from the spec: [aimacode.search.Node] is missing; only the
    state a node wraps is read here. *)
Record Node : Type := mkNode { state : list bool }.

End Aima.
Import Aima.

(** ** lp_utils: the fluent-state codec *)

Module LpUtils.

(** Modelled from the spec: [lp_utils.FluentState] is missing.  A sparse
    state is the pair of the true literals and the false literals. *)
Record FluentState : Type := mkFluentState {
  pos : list Expr;
  neg : list Expr
}.

(** Modelled from the spec: [FluentState.pos_sentence] is missing; it is
    the conjunction of the true literals. *)
Definition pos_sentence (fs : FluentState) : Sentence := Conj (pos fs).

(** Modelled from the spec: [lp_utils.encode_state] is missing.  Position
    [i] of the vector is true iff the literal at position [i] of the map is
    among the true literals; the false literals are not consulted. *)
Definition encode_state (fs : FluentState) (fluent_map : list Expr)
  : list bool :=
  map (fun fluent => memb fluent (pos fs)) fluent_map.

(** Modelled from the spec: the loop of [lp_utils.decode_state] is missing.
    The map is partitioned by the flags of the vector, in map order. *)
Fixpoint split_by_flags (state : list bool) (fluent_map : list Expr)
  : FluentState :=
  match state, fluent_map with
  | flag :: state', fluent :: fluent_map' =>
      let fs := split_by_flags state' fluent_map' in
      if flag
      then mkFluentState (fluent :: pos fs) (neg fs)
      else mkFluentState (pos fs) (fluent :: neg fs)
  | _, _ => mkFluentState [] []
  end.

(** Modelled from the spec: [lp_utils.decode_state] is missing.  A vector
    whose length differs from the map's is rejected; otherwise the map is
    partitioned by the flags. *)
Definition decode_state (state : list bool) (fluent_map : list Expr)
  : res FluentState :=
  if Nat.eqb (length state) (length fluent_map)
  then Ok (split_by_flags state fluent_map)
  else Err StateEncodingError.

End LpUtils.
Import LpUtils.

(** ** The problem class *)

Record AirCargoProblem : Type := mkAirCargoProblem {
  state_map : list Expr;
  initial_state_TF : list bool;
  goal : list Expr;
  cargos : list string;
  planes : list string;
  airports : list string;
  actions_list : list Action
}.

(** *** Grounding of the three schemas *)

(** The body of the innermost loop of [load_actions]. *)
Definition Load (c p ap : string) : Action :=
  let precond_pos := [At p ap; At c ap] in
  let precond_neg := [In_ c p] in
  let effect_add := [In_ c p] in
  let effect_rem := [At c ap] in
  Action_ (mkExpr "Load" [c; p]) (precond_pos, precond_neg)
          (effect_add, effect_rem).

(** The body of the innermost loop of [unload_actions]. *)
Definition Unload (c p ap : string) : Action :=
  let precond_pos := [In_ c p; At p ap] in
  let precond_neg := [At c ap] in
  let effect_add := [At c ap] in
  let effect_rem := [In_ c p] in
  Action_ (mkExpr "Unload" [c; p]) (precond_pos, precond_neg)
          (effect_add, effect_rem).

(** The body of the innermost loop of [fly_actions]. *)
Definition Fly (p fr to : string) : Action :=
  let precond_pos := [At p fr] in
  let precond_neg := [] in
  let effect_add := [At p to] in
  let effect_rem := [At p fr] in
  Action_ (mkExpr "Fly" [p; fr; to]) (precond_pos, precond_neg)
          (effect_add, effect_rem).

Section Grounding.

Variable self : AirCargoProblem.

Definition load_actions : list Action :=
  flat_map (fun ap =>
    flat_map (fun p =>
      map (fun c => Load c p ap) (cargos self)) (planes self))
    (airports self).

Definition unload_actions : list Action :=
  flat_map (fun ap =>
    flat_map (fun p =>
      map (fun c => Unload c p ap) (cargos self)) (planes self))
    (airports self).

Definition fly_actions : list Action :=
  flat_map (fun fr =>
    flat_map (fun to =>
      if negb (String.eqb fr to)
      then map (fun p => Fly p fr to) (planes self)
      else []) (airports self))
    (airports self).

Definition get_actions : list Action :=
  (load_actions ++ unload_actions) ++ fly_actions.

End Grounding.

(** [AirCargoProblem.__init__]: the state map is the true literals of the
    initial state followed by its false literals; the encoded initial state
    and the goal are the ones handed to the search problem; the grounded
    actions are computed once, from the object lists already stored. *)
Definition AirCargoProblem_ (cargos planes airports : list string)
  (initial : FluentState) (goal : list Expr) : AirCargoProblem :=
  let state_map := pos initial ++ neg initial in
  let initial_state_TF := encode_state initial state_map in
  let self :=
    mkAirCargoProblem state_map initial_state_TF goal cargos planes airports
                      [] in
  mkAirCargoProblem state_map initial_state_TF goal cargos planes airports
                    (get_actions self).

(** *** The transition model *)

Section Methods.

Variable self : AirCargoProblem.

(** The sets the method builds from the decoded lists and from the
    preconditions are only tested for inclusion, which [issubset] decides on
    the lists themselves. *)
Definition actions (state : list bool) : res (list Action) :=
  fluents <- decode_state state (state_map self) ;;
  Ok (filter (fun a =>
                issubset (precond_neg a) (neg fluents)
                && issubset (precond_pos a) (pos fluents))
             (actions_list self)).

Definition result (state : list bool) (action : Action) : res (list bool) :=
  fluents <- decode_state state (state_map self) ;;
  let pos_list :=
    filter (fun x => negb (memb x (effect_rem action))) (pos fluents)
    ++ effect_add action in
  let neg_list :=
    filter (fun x => negb (memb x (effect_add action))) (neg fluents)
    ++ effect_rem action in
  let new_state := mkFluentState pos_list neg_list in
  Ok (encode_state new_state (state_map self)).

(** The loop of [goal_test]: the first goal clause that is not among the
    clauses of the knowledge base makes the answer false. *)
Fixpoint goal_loop (kb : PropKB) (goal_ : list Expr) : bool :=
  match goal_ with
  | [] => true
  | clause :: rest =>
      if negb (memb clause (clauses kb)) then false else goal_loop kb rest
  end.

Definition goal_test (state : list bool) : res bool :=
  fluents <- decode_state state (state_map self) ;;
  let kb := tell PropKB_ (pos_sentence fluents) in
  Ok (goal_loop kb (goal self)).

Definition h_1 (node : Node) : nat := 1.

(** The loop of [h_ignore_preconditions], with the counter threaded. *)
Fixpoint count_unmet (x : FluentState) (goal_ : list Expr) (count : nat)
  : nat :=
  match goal_ with
  | [] => count
  | g :: rest =>
      count_unmet x rest (if memb g (neg x) then count + 1 else count)
  end.

Definition h_ignore_preconditions (node : Node) : res nat :=
  x <- decode_state (state node) (state_map self) ;;
  Ok (count_unmet x (goal self) 0).

End Methods.

(** *** The sample instance *)

Definition air_cargo_p1 : AirCargoProblem :=
  let cargoes := ["C1"; "C2"] in
  let planes := ["P1"; "P2"] in
  let airports := ["JFK"; "SFO"] in
  let pos := [At "C1" "SFO"; At "C2" "JFK"; At "P1" "SFO"; At "P2" "JFK"] in
  let neg := [At "C2" "SFO"; In_ "C2" "P1"; In_ "C2" "P2"; At "C1" "JFK";
              In_ "C1" "P1"; In_ "C1" "P2"; At "P1" "JFK"; At "P2" "SFO"] in
  let init := mkFluentState pos neg in
  let goal := [At "C1" "JFK"; At "C2" "SFO"] in
  AirCargoProblem_ cargoes planes airports init goal.


(** ** Vocabulary of the specification *)

(** Two lists of literals compared as sets. *)
Definition same_set (xs ys : list Expr) : Prop :=
  forall x, In x xs <-> In x ys.

(** Two lists of actions compared as sets. *)
Definition same_actions (xs ys : list Action) : Prop :=
  forall a, In a xs <-> In a ys.

(** An encoded state over a state map: the encoding of some sparse state. *)
Definition encoded_over (fluent_map : list Expr) (s : list bool) : Prop :=
  exists fs, s = encode_state fs fluent_map.

(** [fs'] is [fs] updated by the effects of [a], STRIPS style, as sets. *)
Definition strips_update (fs : FluentState) (a : Action) (fs' : FluentState)
  : Prop :=
  (forall x, In x (pos fs') <->
             (In x (pos fs) /\ ~ In x (effect_rem a)) \/ In x (effect_add a))
  /\
  (forall x, In x (neg fs') <->
             (In x (neg fs) /\ ~ In x (effect_add a)) \/ In x (effect_rem a)).

(** [result] returns, and what it returns decodes to the STRIPS update of
    what [s] decodes to. *)
Definition result_is_strips_update (self : AirCargoProblem) (s : list bool)
  (a : Action) : Prop :=
  exists fs s' fs',
    decode_state s (state_map self) = Ok fs
    /\ result self s a = Ok s'
    /\ decode_state s' (state_map self) = Ok fs'
    /\ strips_update fs a fs'.

(** The true and the false literals are disjoint and cover the map. *)
Definition partitions (fluent_map : list Expr) (fs : FluentState) : Prop :=
  (forall x, ~ (In x (pos fs) /\ In x (neg fs)))
  /\ (forall x, In x fluent_map <-> In x (pos fs) \/ In x (neg fs)).

(** States reachable from the initial state by applicable actions. *)
Inductive reachable (self : AirCargoProblem) : list bool -> Prop :=
| reach_initial : reachable self (initial_state_TF self)
| reach_result (s s' : list bool) (acts : list Action) (a : Action) :
    reachable self s ->
    actions self s = Ok acts ->
    In a acts ->
    result self s a = Ok s' ->
    reachable self s'.

(** [result] applied successively along a plan. *)
Fixpoint execute (self : AirCargoProblem) (s : list bool)
  (plan : list Action) : res (list bool) :=
  match plan with
  | [] => Ok s
  | a :: plan' => s' <- result self s a ;; execute self s' plan'
  end.

(** The direct subset check of the design notes: every goal literal is among
    the true literals of the decoded state. *)
Definition goal_subset_check (self : AirCargoProblem) (s : list bool)
  : res bool :=
  fluents <- decode_state s (state_map self) ;;
  Ok (issubset (goal self) (pos fluents)).

(** Number of goal entries that are false in [fs] and true in [fs']. *)
Definition made_true (goal_ : list Expr) (fs fs' : FluentState) : nat :=
  List.length
    (filter (fun g => memb g (neg fs) && memb g (pos fs')) goal_).

(** Number of goal entries that are true in [fs] and false in [fs']. *)
Definition made_false (goal_ : list Expr) (fs fs' : FluentState) : nat :=
  List.length
    (filter (fun g => memb g (pos fs) && memb g (neg fs')) goal_).

(** [result] returns on [s] and [a], the heuristic is defined before and
    after, and its change is accounted for by the goal entries the action
    makes true and the ones it makes false. *)
Definition heuristic_accounting (self : AirCargoProblem) (s : list bool)
  (a : Action) : Prop :=
  exists s' fs fs' h h',
    decode_state s (state_map self) = Ok fs
    /\ result self s a = Ok s'
    /\ decode_state s' (state_map self) = Ok fs'
    /\ h_ignore_preconditions self (mkNode s) = Ok h
    /\ h_ignore_preconditions self (mkNode s') = Ok h'
    /\ h' + made_true (goal self) fs fs' = h + made_false (goal self) fs fs'
    /\ (made_true (goal self) fs fs' = 1 ->
        made_false (goal self) fs fs' = 0 -> h' = h - 1 /\ 1 <= h)
    /\ (made_false (goal self) fs fs' = 0 -> h' <= h)
    /\ ((forall g, In g (goal self) -> ~ In g (effect_rem a)) -> h' <= h).

(** The heuristic does not increase across the application of [a] in [s]. *)
Definition heuristic_not_increased (self : AirCargoProblem) (s : list bool)
  (a : Action) : Prop :=
  forall s' h h',
    result self s a = Ok s' ->
    h_ignore_preconditions self (mkNode s) = Ok h ->
    h_ignore_preconditions self (mkNode s') = Ok h' ->
    h' <= h.

(** The literal [l] is true in the encoded state [s]. *)
Definition holds (self : AirCargoProblem) (s : list bool) (l : Expr) : Prop :=
  exists fs, decode_state s (state_map self) = Ok fs /\ In l (pos fs).

(** Applying [a] and then [b] from [s] returns, and returns [s]. *)
Definition undone_by (self : AirCargoProblem) (s : list bool)
  (a b : Action) : Prop :=
  exists s1, result self s a = Ok s1 /\ result self s1 b = Ok s.

(** The plan of the design document for the sample instance. *)
Definition p1_plan : list Action :=
  [Load "C1" "P1" "SFO"; Fly "P1" "SFO" "JFK"; Unload "C1" "P1" "JFK";
   Load "C2" "P2" "JFK"; Fly "P2" "JFK" "SFO"; Unload "C2" "P2" "SFO"].

(** The actions the design document lists as applicable in the initial state
    of the sample instance: two loads and both flights of each plane. *)
Definition p1_listed_actions : list Action :=
  [Load "C1" "P1" "SFO"; Load "C2" "P2" "JFK";
   Fly "P1" "SFO" "JFK"; Fly "P1" "JFK" "SFO";
   Fly "P2" "JFK" "SFO"; Fly "P2" "SFO" "JFK"].

(** A problem whose initial state does not mention [In(C1, P1)]: the state
    map lacks the literal that loading adds. *)
Definition problem_without_In : AirCargoProblem :=
  AirCargoProblem_ ["C1"] ["P1"] ["SFO"]
    (mkFluentState [At "C1" "SFO"; At "P1" "SFO"] []) [In_ "C1" "P1"].

(** A problem whose initial state has the plane at both airports. *)
Definition problem_plane_twice : AirCargoProblem :=
  AirCargoProblem_ [] ["P1"] ["SFO"; "JFK"]
    (mkFluentState [At "P1" "SFO"; At "P1" "JFK"] []) [].


(** ** The generated instances *)

(** Python's [str] on a natural number. *)
Definition str (n : nat) : string :=
  NilZero.string_of_uint (Nat.to_uint n).

(** Python's [enumerate]. *)
Definition enumerate {A : Type} (l : list A) : list (nat * A) :=
  combine (seq 0 (List.length l)) l.

(** The three lists the loops of [formulate_problem] append to. *)
Record Lists : Type := mkLists {
  pos_ : list Expr;
  neg_ : list Expr;
  goal_of : list Expr
}.

(** The first pair of loops, [for c in cargoes: for p in planes], which
    appends [In(c, p)] to the false literals. *)
Definition in_loop (cargoes planes : list string) (neg : list Expr)
  : list Expr :=
  fold_left (fun neg c =>
               fold_left (fun neg p => neg ++ [In_ c p]) planes neg)
            cargoes neg.

(** The body of [for ic, c in enumerate(cargoes)] at airport [a] of index
    [ia]; [n] is [len(airports)], and [n - ia - 1] is not negative since
    [ia < n]. *)
Definition cargo_step (n ia : nat) (a : string) (st : Lists)
  (icc : nat * string) : Lists :=
  let ic := fst icc in
  let c := snd icc in
  let e := At c a in
  let st :=
    if Nat.eqb ia ic
    then mkLists (pos_ st ++ [e]) (neg_ st) (goal_of st)
    else mkLists (pos_ st) (neg_ st ++ [e]) (goal_of st) in
  if Nat.eqb ic (n - ia - 1)
  then mkLists (pos_ st) (neg_ st) (goal_of st ++ [At c a])
  else st.

(** The body of [for ip, p in enumerate(planes)] at airport [a] of index
    [ia]. *)
Definition plane_step (ia : nat) (a : string) (st : Lists)
  (ipp : nat * string) : Lists :=
  let ip := fst ipp in
  let p := snd ipp in
  let e1 := At p a in
  if Nat.eqb ip ia
  then mkLists (pos_ st ++ [e1]) (neg_ st) (goal_of st)
  else mkLists (pos_ st) (neg_ st ++ [e1]) (goal_of st).

(** The body of [for ia, a in enumerate(airports)]. *)
Definition airport_step (n : nat) (cargoes planes : list string)
  (st : Lists) (iaa : nat * string) : Lists :=
  let ia := fst iaa in
  let a := snd iaa in
  let st := fold_left (cargo_step n ia a) (enumerate cargoes) st in
  fold_left (plane_step ia a) (enumerate planes) st.

(** ['C' + str(x+1)]. *)
Definition cargo_name (x : nat) : string := ("C" ++ str (x + 1))%string.

(** ['P' + str(x+1)]. *)
Definition plane_name (x : nat) : string := ("P" ++ str (x + 1))%string.

(** [['C' + str(x+1) for x in range(c)]]. *)
Definition cargo_names (c : nat) : list string :=
  map cargo_name (seq 0 c).

(** [['P' + str(x+1) for x in range(p)]]. *)
Definition plane_names (p : nat) : list string :=
  map plane_name (seq 0 p).

(** The three lists once all the loops of [formulate_problem] have run. *)
Definition formulate_lists (airports : list string) (c p : nat) : Lists :=
  let cargoes := cargo_names c in
  let planes := plane_names p in
  let neg := in_loop cargoes planes [] in
  fold_left (airport_step (List.length airports) cargoes planes)
            (enumerate airports) (mkLists [] neg []).

Definition formulate_problem (airports : list string) (c p : nat)
  : AirCargoProblem :=
  let cargoes := cargo_names c in
  let planes := plane_names p in
  let st := formulate_lists airports c p in
  let init := mkFluentState (pos_ st) (neg_ st) in
  AirCargoProblem_ cargoes planes airports init (goal_of st).

Definition air_cargo_p2 : AirCargoProblem :=
  let airports := ["SFO"; "JFK"; "ATL"] in
  formulate_problem airports 3 3.

Definition air_cargo_p3 : AirCargoProblem :=
  let airports := ["SFO"; "JFK"; "ATL"; "ORD"] in
  formulate_problem airports 4 2.

(** *** What each loop of [formulate_problem] contributes

    The literals one iteration appends to each of the three lists; the
    lemmas below show that the loops append exactly these, in order. *)

Definition in_literals (cargoes planes : list string) : list Expr :=
  flat_map (fun c => map (In_ c) planes) cargoes.

Definition cargo_pos (ia : nat) (a : string) (icc : nat * string)
  : list Expr :=
  if Nat.eqb ia (fst icc) then [At (snd icc) a] else [].

Definition cargo_neg (ia : nat) (a : string) (icc : nat * string)
  : list Expr :=
  if Nat.eqb ia (fst icc) then [] else [At (snd icc) a].

Definition cargo_goal (n ia : nat) (a : string) (icc : nat * string)
  : list Expr :=
  if Nat.eqb (fst icc) (n - ia - 1) then [At (snd icc) a] else [].

Definition plane_pos (ia : nat) (a : string) (ipp : nat * string)
  : list Expr :=
  if Nat.eqb (fst ipp) ia then [At (snd ipp) a] else [].

Definition plane_neg (ia : nat) (a : string) (ipp : nat * string)
  : list Expr :=
  if Nat.eqb (fst ipp) ia then [] else [At (snd ipp) a].

Definition airport_pos (cargoes planes : list string) (iaa : nat * string)
  : list Expr :=
  flat_map (cargo_pos (fst iaa) (snd iaa)) (enumerate cargoes)
  ++ flat_map (plane_pos (fst iaa) (snd iaa)) (enumerate planes).

Definition airport_neg (cargoes planes : list string) (iaa : nat * string)
  : list Expr :=
  flat_map (cargo_neg (fst iaa) (snd iaa)) (enumerate cargoes)
  ++ flat_map (plane_neg (fst iaa) (snd iaa)) (enumerate planes).

Definition airport_goal (n : nat) (cargoes : list string)
  (iaa : nat * string) : list Expr :=
  flat_map (cargo_goal n (fst iaa) (snd iaa)) (enumerate cargoes).

(** ** Vocabulary of the further properties *)

(** The literal [l] is false in the encoded state [s]. *)
Definition fails (self : AirCargoProblem) (s : list bool) (l : Expr) : Prop :=
  exists fs, decode_state s (state_map self) = Ok fs /\ In l (neg fs).




(** No plane is at two airports in [s]. *)
Definition planes_in_one_place (self : AirCargoProblem) (s : list bool)
  : Prop :=
  forall p a1 a2,
    In p (planes self) ->
    holds self s (At p a1) -> holds self s (At p a2) -> a1 = a2.


(** ** Membership and the codec *)

Lemma args_eqb_eq (xs ys : list string) : args_eqb xs ys = true <-> xs = ys.
Proof.
  revert ys; induction xs as [|x xs IH]; intros [|y ys]; simpl;
    try (split; [discriminate | discriminate]); try tauto.
  rewrite andb_true_iff, String.eqb_eq, IH.
  split; [intros [-> ->]; reflexivity | intros E; inversion E; auto].
Qed.

Lemma Expr_eqb_eq (e1 e2 : Expr) : Expr_eqb e1 e2 = true <-> e1 = e2.
Proof.
  destruct e1 as [o1 a1], e2 as [o2 a2]; unfold Expr_eqb; simpl.
  rewrite andb_true_iff, String.eqb_eq, args_eqb_eq.
  split; [intros [-> ->]; reflexivity | intros E; inversion E; auto].
Qed.

Lemma memb_In (x : Expr) (xs : list Expr) : memb x xs = true <-> In x xs.
Proof.
  induction xs as [|y ys IH]; simpl.
  - split; [discriminate | tauto].
  - rewrite orb_true_iff, Expr_eqb_eq, IH; tauto.
Qed.

Lemma memb_notIn (x : Expr) (xs : list Expr) :
  memb x xs = false <-> ~ In x xs.
Proof.
  rewrite <- memb_In; destruct (memb x xs); split; congruence.
Qed.

Lemma issubset_incl (xs ys : list Expr) :
  issubset xs ys = true <-> incl xs ys.
Proof.
  unfold issubset, incl; rewrite forallb_forall.
  split; intros H x Hx; apply memb_In; auto.
Qed.

Lemma encode_state_length (fs : FluentState) (m : list Expr) :
  List.length (encode_state fs m) = List.length m.
Proof. apply length_map. Qed.

Lemma decode_state_Ok (s : list bool) (m : list Expr) :
  List.length s = List.length m ->
  decode_state s m = Ok (split_by_flags s m).
Proof.
  intros E; unfold decode_state; rewrite E, Nat.eqb_refl; reflexivity.
Qed.

Lemma decode_state_inv (s : list bool) (m : list Expr) (fs : FluentState) :
  decode_state s m = Ok fs ->
  List.length s = List.length m /\ fs = split_by_flags s m.
Proof.
  unfold decode_state.
  destruct (Nat.eqb (List.length s) (List.length m)) eqn:E; [|discriminate].
  apply Nat.eqb_eq in E; intros H; inversion H; auto.
Qed.

(** Decoding an encoding filters the map by membership in the true list. *)
Lemma split_encode_pos (fs : FluentState) (m : list Expr) :
  pos (split_by_flags (encode_state fs m) m)
  = filter (fun l => memb l (pos fs)) m.
Proof.
  induction m as [|l m IH]; simpl; [reflexivity|].
  destruct (memb l (pos fs)); simpl; rewrite IH; reflexivity.
Qed.

Lemma split_encode_neg (fs : FluentState) (m : list Expr) :
  neg (split_by_flags (encode_state fs m) m)
  = filter (fun l => negb (memb l (pos fs))) m.
Proof.
  induction m as [|l m IH]; simpl; [reflexivity|].
  destruct (memb l (pos fs)); simpl; rewrite IH; reflexivity.
Qed.

Lemma In_split_encode_pos (fs : FluentState) (m : list Expr) (x : Expr) :
  In x (pos (split_by_flags (encode_state fs m) m))
  <-> In x m /\ In x (pos fs).
Proof. rewrite split_encode_pos, filter_In, memb_In; tauto. Qed.

Lemma In_split_encode_neg (fs : FluentState) (m : list Expr) (x : Expr) :
  In x (neg (split_by_flags (encode_state fs m) m))
  <-> In x m /\ ~ In x (pos fs).
Proof.
  rewrite split_encode_neg, filter_In, negb_true_iff, memb_notIn; tauto.
Qed.

(** Whatever the flags, the two decoded lists cover the map. *)
Lemma split_by_flags_cover (s : list bool) (m : list Expr) (x : Expr) :
  List.length s = List.length m ->
  In x m <->
  In x (pos (split_by_flags s m)) \/ In x (neg (split_by_flags s m)).
Proof.
  revert m; induction s as [|b s IH]; intros [|l m] E; simpl in *;
    try discriminate; [tauto|].
  injection E as E; specialize (IH m E).
  destruct b; simpl; tauto.
Qed.

(** On a map without repetition every vector of the right length is the
    encoding of its own decoding. *)
Lemma encode_split_by_flags (s : list bool) (m : list Expr) :
  NoDup m -> List.length s = List.length m ->
  encode_state (split_by_flags s m) m = s.
Proof.
  unfold encode_state.
  revert m; induction s as [|b s IH]; intros [|l m] ND E; simpl in *;
    try discriminate; [reflexivity|].
  injection E as E; inversion ND as [|? ? Hl ND']; subst.
  assert (Hsub : forall x, In x (pos (split_by_flags s m)) -> In x m).
  { intros x Hx; apply (split_by_flags_cover s m x E); auto. }
  destruct b; simpl.
  - rewrite (proj2 (Expr_eqb_eq l l) eq_refl); simpl; f_equal.
    transitivity (map (fun y => memb y (pos (split_by_flags s m))) m);
      [|apply (IH m ND' E)].
    apply map_ext_in; intros y Hy.
    destruct (Expr_eqb l y) eqn:Ely; simpl; [|reflexivity].
    apply Expr_eqb_eq in Ely; subst; contradiction.
  - f_equal.
    + apply memb_notIn; intros Hin; apply Hl, Hsub, Hin.
    + apply (IH m ND' E).
Qed.

Lemma encoded_over_NoDup (s : list bool) (m : list Expr) :
  NoDup m -> List.length s = List.length m -> encoded_over m s.
Proof.
  intros ND E; exists (split_by_flags s m).
  symmetry; apply encode_split_by_flags; assumption.
Qed.

Lemma encoded_over_length (s : list bool) (m : list Expr) :
  encoded_over m s -> List.length s = List.length m.
Proof. intros [fs ->]; apply encode_state_length. Qed.


(** ** Applicable actions *)

(** C2.  For every encoded state, [actions] returns the sub-list of
    [actions_list], in its order, of exactly those actions whose negative
    preconditions are included in the decoded false literals and whose
    positive preconditions are included in the decoded true literals. *)
Theorem actions_exactly_applicable (self : AirCargoProblem) (s : list bool) :
  List.length s = List.length (state_map self) ->
  exists fluents acts,
    decode_state s (state_map self) = Ok fluents
    /\ actions self s = Ok acts
    /\ (exists keep : Action -> bool,
          acts = filter keep (actions_list self)
          /\ forall a, keep a = true <->
                       incl (precond_neg a) (neg fluents)
                       /\ incl (precond_pos a) (pos fluents))
    /\ (forall a, In a acts <->
                  In a (actions_list self)
                  /\ incl (precond_neg a) (neg fluents)
                  /\ incl (precond_pos a) (pos fluents)).
Proof.
  intros E.
  exists (split_by_flags s (state_map self)).
  unfold actions; rewrite (decode_state_Ok _ _ E); simpl.
  eexists; split; [reflexivity|]; split; [reflexivity|]; split.
  - eexists; split; [reflexivity|].
    intros a; rewrite andb_true_iff, !issubset_incl; tauto.
  - intros a; rewrite filter_In, andb_true_iff, !issubset_incl; tauto.
Qed.

Lemma actions_exactly_applicable_witness :
  exists fluents acts,
    decode_state (initial_state_TF air_cargo_p1) (state_map air_cargo_p1)
    = Ok fluents
    /\ actions air_cargo_p1 (initial_state_TF air_cargo_p1) = Ok acts
    /\ (exists keep : Action -> bool,
          acts = filter keep (actions_list air_cargo_p1)
          /\ forall a, keep a = true <->
                       incl (precond_neg a) (neg fluents)
                       /\ incl (precond_pos a) (pos fluents))
    /\ (forall a, In a acts <->
                  In a (actions_list air_cargo_p1)
                  /\ incl (precond_neg a) (neg fluents)
                  /\ incl (precond_pos a) (pos fluents)).
Proof.
  apply (actions_exactly_applicable air_cargo_p1
           (initial_state_TF air_cargo_p1)).
  reflexivity.
Defined.

(** An action that [actions] returns has its preconditions met. *)
Lemma actions_In (self : AirCargoProblem) (s : list bool)
  (acts : list Action) (a : Action) :
  actions self s = Ok acts -> In a acts ->
  List.length s = List.length (state_map self)
  /\ In a (actions_list self)
  /\ incl (precond_neg a) (neg (split_by_flags s (state_map self)))
  /\ incl (precond_pos a) (pos (split_by_flags s (state_map self))).
Proof.
  unfold actions; intros H Ha.
  destruct (decode_state s (state_map self)) as [fs|] eqn:D; [|discriminate].
  apply decode_state_inv in D as [E ->]; simpl in H.
  inversion H; subst acts; clear H.
  apply filter_In in Ha as [Hin Hk].
  apply andb_true_iff in Hk as [Hn Hp].
  apply issubset_incl in Hn, Hp; auto.
Qed.

(** ** Goal test *)

Lemma goal_loop_issubset (kb : PropKB) (goal_ : list Expr) :
  goal_loop kb goal_ = issubset goal_ (clauses kb).
Proof.
  induction goal_ as [|g rest IH]; simpl; [reflexivity|].
  destruct (memb g (clauses kb)); simpl; [exact IH | reflexivity].
Qed.

(** C7.  On every encoded state [goal_test] returns, and it returns true
    exactly when every literal of the goal list is among the true literals
    of the decoded state: telling the knowledge base the conjunction of the
    true literals and looking every goal clause up in it is the direct subset
    check.  (Literals of this model are positive ground atoms by type.) *)
Theorem goal_test_is_subset_check (self : AirCargoProblem) (s : list bool) :
  List.length s = List.length (state_map self) ->
  exists fluents b,
    decode_state s (state_map self) = Ok fluents
    /\ goal_test self s = Ok b
    /\ (b = true <-> forall g, In g (goal self) -> In g (pos fluents))
    /\ goal_test self s = goal_subset_check self s.
Proof.
  intros E.
  exists (split_by_flags s (state_map self)).
  unfold goal_test, goal_subset_check.
  rewrite (decode_state_Ok _ _ E); simpl.
  eexists; split; [reflexivity|]; split; [reflexivity|].
  rewrite goal_loop_issubset; simpl; split; [|reflexivity].
  rewrite issubset_incl; reflexivity.
Qed.

Lemma goal_test_is_subset_check_witness :
  exists fluents b,
    decode_state (initial_state_TF air_cargo_p1) (state_map air_cargo_p1)
    = Ok fluents
    /\ goal_test air_cargo_p1 (initial_state_TF air_cargo_p1) = Ok b
    /\ (b = true <->
        forall g, In g (goal air_cargo_p1) -> In g (pos fluents))
    /\ goal_test air_cargo_p1 (initial_state_TF air_cargo_p1)
       = goal_subset_check air_cargo_p1 (initial_state_TF air_cargo_p1).
Proof.
  apply (goal_test_is_subset_check air_cargo_p1
           (initial_state_TF air_cargo_p1)).
  reflexivity.
Defined.


(** ** Counting the grounded actions *)

Section Counting.

Context {A B : Type}.

Lemma flat_map_length_const (f : A -> list B) (l : list A) (k : nat) :
  (forall x, In x l -> List.length (f x) = k) ->
  List.length (flat_map f l) = List.length l * k.
Proof.
  induction l as [|x l IH]; intros H; simpl; [reflexivity|].
  rewrite length_app, (H x (or_introl eq_refl)), IH; [reflexivity|].
  intros y Hy; apply H; right; exact Hy.
Qed.

Lemma flat_map_length_guarded (keep : A -> bool) (f : A -> list B)
  (l : list A) (k : nat) :
  (forall x, List.length (f x) = k) ->
  List.length (flat_map (fun x => if keep x then f x else []) l)
  = List.length (filter keep l) * k.
Proof.
  intros H; induction l as [|x l IH]; simpl; [reflexivity|].
  rewrite length_app, IH.
  destruct (keep x); simpl; [rewrite H|]; reflexivity.
Qed.

End Counting.

(** Filtering one airport out of a list that does not contain it. *)
Lemma filter_other_absent (x : string) (l : list string) :
  ~ In x l ->
  List.length (filter (fun y => negb (String.eqb x y)) l) = List.length l.
Proof.
  induction l as [|y l IH]; intros H; simpl; [reflexivity|].
  destruct (String.eqb x y) eqn:E; simpl.
  - apply String.eqb_eq in E; subst; exfalso; apply H; left; reflexivity.
  - rewrite IH; [reflexivity|]; intros Hx; apply H; right; exact Hx.
Qed.

(** Filtering one airport out of a list in which it occurs once. *)
Lemma filter_other_present (x : string) (l : list string) :
  NoDup l -> In x l ->
  List.length (filter (fun y => negb (String.eqb x y)) l)
  = List.length l - 1.
Proof.
  induction l as [|y l IH]; intros ND H; simpl; [contradiction|].
  inversion ND as [|? ? Hy ND']; subst.
  destruct (String.eqb x y) eqn:E; simpl.
  - apply String.eqb_eq in E; subst.
    rewrite filter_other_absent by assumption; lia.
  - destruct H as [H|H]; [subst; rewrite String.eqb_refl in E; discriminate|].
    rewrite (IH ND' H).
    destruct l; [contradiction | simpl; lia].
Qed.

Lemma load_actions_length (self : AirCargoProblem) :
  List.length (load_actions self)
  = List.length (airports self) * (List.length (planes self)
                                   * List.length (cargos self)).
Proof.
  unfold load_actions.
  apply flat_map_length_const; intros ap _.
  apply flat_map_length_const; intros p _.
  apply length_map.
Qed.

Lemma unload_actions_length (self : AirCargoProblem) :
  List.length (unload_actions self)
  = List.length (airports self) * (List.length (planes self)
                                   * List.length (cargos self)).
Proof.
  unfold unload_actions.
  apply flat_map_length_const; intros ap _.
  apply flat_map_length_const; intros p _.
  apply length_map.
Qed.

Lemma fly_actions_length (self : AirCargoProblem) :
  NoDup (airports self) ->
  List.length (fly_actions self)
  = List.length (airports self)
    * ((List.length (airports self) - 1) * List.length (planes self)).
Proof.
  intros ND; unfold fly_actions.
  apply flat_map_length_const; intros fr Hfr.
  rewrite (flat_map_length_guarded
             (fun to => negb (String.eqb fr to))
             (fun to => map (fun p => Fly p fr to) (planes self))
             (airports self) (List.length (planes self)))
    by (intros to; apply length_map).
  rewrite (filter_other_present fr _ ND Hfr); reflexivity.
Qed.

(** C4.  With [A] pairwise distinct airports, [P] planes and [C] cargos,
    [get_actions] returns [A*P*C*2 + A*(A-1)*P] grounded actions; with two of
    each, twenty. *)
Theorem get_actions_count (self : AirCargoProblem) (A P C : nat) :
  NoDup (airports self) ->
  List.length (airports self) = A ->
  List.length (planes self) = P ->
  List.length (cargos self) = C ->
  List.length (get_actions self) = A * P * C * 2 + A * (A - 1) * P
  /\ (A = 2 -> P = 2 -> C = 2 -> List.length (get_actions self) = 20).
Proof.
  intros ND HA HP HC.
  assert (H : List.length (get_actions self)
              = A * P * C * 2 + A * (A - 1) * P).
  { unfold get_actions.
    rewrite !length_app, load_actions_length, unload_actions_length,
      (fly_actions_length self ND), HA, HP, HC.
    nia. }
  split; [exact H|].
  intros -> -> ->; exact H.
Qed.

Lemma get_actions_count_witness :
  List.length (get_actions air_cargo_p1) = 2 * 2 * 2 * 2 + 2 * (2 - 1) * 2
  /\ (2 = 2 -> 2 = 2 -> 2 = 2 ->
      List.length (get_actions air_cargo_p1) = 20).
Proof.
  apply (get_actions_count air_cargo_p1 2 2 2);
    [ repeat constructor; simpl; intuition discriminate
    | reflexivity | reflexivity | reflexivity ].
Defined.


(** ** Effect application *)

(** What [result] returns on a vector of the right length, literal by
    literal: a literal of the map is true afterwards iff it was true and is
    not deleted, or is added; every other literal of the map is false. *)
Lemma result_decoded (self : AirCargoProblem) (s : list bool) (a : Action) :
  List.length s = List.length (state_map self) ->
  exists s',
    result self s a = Ok s'
    /\ encoded_over (state_map self) s'
    /\ forall x,
        let was_true := In x (pos (split_by_flags s (state_map self))) in
        let now_true :=
          (was_true /\ ~ In x (effect_rem a)) \/ In x (effect_add a) in
        (In x (pos (split_by_flags s' (state_map self)))
         <-> In x (state_map self) /\ now_true)
        /\ (In x (neg (split_by_flags s' (state_map self)))
            <-> In x (state_map self) /\ ~ now_true).
Proof.
  intros E; unfold result; rewrite (decode_state_Ok _ _ E); simpl.
  eexists; split; [reflexivity|]; split; [eexists; reflexivity|].
  intros x; simpl.
  rewrite In_split_encode_pos, In_split_encode_neg; simpl.
  rewrite in_app_iff, filter_In, negb_true_iff, memb_notIn; tauto.
Qed.

Lemma result_encoded (self : AirCargoProblem) (s s' : list bool)
  (a : Action) :
  result self s a = Ok s' -> encoded_over (state_map self) s'.
Proof.
  unfold result.
  destruct (decode_state s (state_map self)) as [fs|]; [|discriminate].
  simpl; intros H; inversion H; eexists; reflexivity.
Qed.

(** The decoding of an encoding is a partition of the map. *)
Lemma encoded_partitions (m : list Expr) (s : list bool) :
  encoded_over m s -> partitions m (split_by_flags s m).
Proof.
  intros [fs ->]; split; intros x.
  - rewrite In_split_encode_pos, In_split_encode_neg; tauto.
  - apply split_by_flags_cover, encode_state_length.
Qed.

(** In the decoding of an encoding, false means in the map and not true. *)
Lemma encoded_neg_iff (m : list Expr) (s : list bool) (x : Expr) :
  encoded_over m s ->
  In x (neg (split_by_flags s m))
  <-> In x m /\ ~ In x (pos (split_by_flags s m)).
Proof.
  intros [fs ->].
  rewrite In_split_encode_pos, In_split_encode_neg; tauto.
Qed.

Lemma In_dec_Expr (x : Expr) (xs : list Expr) : In x xs \/ ~ In x xs.
Proof.
  destruct (memb x xs) eqn:E;
    [left; apply memb_In | right; apply memb_notIn]; exact E.
Qed.

(** Every grounded action is an instance of one of the three schemas. *)
Lemma get_actions_schema (self : AirCargoProblem) (a : Action) :
  In a (get_actions self) ->
  (exists c p ap, a = Load c p ap)
  \/ (exists c p ap, a = Unload c p ap)
  \/ (exists p fr to, fr <> to /\ a = Fly p fr to).
Proof.
  unfold get_actions, load_actions, unload_actions, fly_actions.
  rewrite !in_app_iff, !in_flat_map.
  intros [[H|H]|H].
  - left; destruct H as (ap & _ & H); apply in_flat_map in H.
    destruct H as (p & _ & H); apply in_map_iff in H.
    destruct H as (c & <- & _); eauto.
  - right; left; destruct H as (ap & _ & H); apply in_flat_map in H.
    destruct H as (p & _ & H); apply in_map_iff in H.
    destruct H as (c & <- & _); eauto.
  - right; right; destruct H as (fr & _ & H); apply in_flat_map in H.
    destruct H as (to & _ & H).
    destruct (String.eqb fr to) eqn:E; simpl in H; [contradiction|].
    apply in_map_iff in H; destruct H as (p & <- & _).
    apply String.eqb_neq in E; eauto.
Qed.

(** No grounded action both adds and deletes a literal. *)
Lemma get_actions_effects_disjoint (self : AirCargoProblem) (a : Action)
  (x : Expr) :
  In a (get_actions self) -> In x (effect_add a) -> ~ In x (effect_rem a).
Proof.
  intros Ha; apply get_actions_schema in Ha.
  destruct Ha as [(c & p & ap & ->)|[(c & p & ap & ->)|(p & fr & to & N & ->)]];
    simpl; intros [<-|[]] [H|[]]; try discriminate H.
  inversion H; congruence.
Qed.

(** C1, amended.  For every encoded state and every grounded action whose
    effect literals all belong to the state map, [result] returns a state
    that decodes to the STRIPS update of the decoded state: true literals
    are the old ones minus the deleted ones plus the added ones, false
    literals the old ones minus the added ones plus the deleted ones, as
    sets. *)
Theorem result_strips_update (self : AirCargoProblem) (s : list bool)
  (a : Action) :
  encoded_over (state_map self) s ->
  In a (get_actions self) ->
  incl (effect_add a) (state_map self) ->
  incl (effect_rem a) (state_map self) ->
  result_is_strips_update self s a.
Proof.
  intros Hs Ha Hadd Hrem.
  pose proof (encoded_over_length _ _ Hs) as E.
  destruct (result_decoded self s a E) as (s' & R & Hs' & Hx).
  exists (split_by_flags s (state_map self)), s',
         (split_by_flags s' (state_map self)).
  split; [apply decode_state_Ok, E|]; split; [exact R|].
  split; [apply decode_state_Ok, encoded_over_length, Hs'|].
  assert (Hpos : forall x, In x (pos (split_by_flags s (state_map self)))
                           -> In x (state_map self)).
  { intros x H; apply (split_by_flags_cover s _ x E); auto. }
  split; intros x; destruct (Hx x) as [Hp Hn]; simpl in Hp, Hn.
  - rewrite Hp; split; [tauto|].
    intros [[H1 H2]|H]; [split; [apply Hpos, H1 | tauto]|].
    split; [apply Hadd, H | tauto].
  - rewrite Hn, (encoded_neg_iff _ _ x Hs).
    pose proof (get_actions_effects_disjoint self a x Ha) as Hdisj.
    destruct (In_dec_Expr x (effect_rem a)) as [Hr|Hr];
      destruct (In_dec_Expr x (effect_add a)) as [Hd|Hd];
      specialize (Hrem x); specialize (Hadd x); tauto.
Qed.

Lemma result_strips_update_witness :
  result_is_strips_update air_cargo_p1 (initial_state_TF air_cargo_p1)
                          (Load "C1" "P1" "SFO").
Proof.
  apply result_strips_update.
  - eexists; reflexivity.
  - vm_compute; tauto.
  - intros x H; vm_compute in H |- *; tauto.
  - intros x H; vm_compute in H |- *; tauto.
Defined.

(** C1, as stated, fails where the state map lacks an effect literal: the
    initial state of [problem_without_In] is an encoded state,
    [Load(C1, P1, SFO)] is one of its grounded actions, and the added
    [In(C1, P1)] is not among the true literals of the decoded result. *)
Lemma result_not_strips_update_outside_map :
  encoded_over (state_map problem_without_In)
               (initial_state_TF problem_without_In)
  /\ In (Load "C1" "P1" "SFO") (get_actions problem_without_In)
  /\ ~ result_is_strips_update problem_without_In
         (initial_state_TF problem_without_In) (Load "C1" "P1" "SFO").
Proof.
  split; [eexists; reflexivity|]; split; [left; reflexivity|].
  intros (fs & s' & fs' & _ & R & D & [U _]).
  vm_compute in R; inversion R; subst s'; clear R.
  vm_compute in D; inversion D; subst fs'; clear D.
  destruct (U (In_ "C1" "P1")) as [_ U'].
  destruct U' as [H|[]]; [right; left; reflexivity | discriminate H].
Qed.


(** ** Effect literals outside the state map *)

(** C9, amended.  [result] makes no check of the effect literals against
    the state map: on every vector of the map's length and every action it
    returns an encoded state of that length, and a literal that is not in
    the state map is in neither list of the decoded result. *)
Theorem result_never_rejects (self : AirCargoProblem) (s : list bool)
  (a : Action) :
  List.length s = List.length (state_map self) ->
  exists s' fs',
    result self s a = Ok s'
    /\ List.length s' = List.length (state_map self)
    /\ decode_state s' (state_map self) = Ok fs'
    /\ forall l, ~ In l (state_map self) ->
                 ~ In l (pos fs') /\ ~ In l (neg fs').
Proof.
  intros E.
  destruct (result_decoded self s a E) as (s' & R & Hs' & _).
  pose proof (encoded_over_length _ _ Hs') as E'.
  exists s', (split_by_flags s' (state_map self)).
  split; [exact R|]; split; [exact E'|].
  split; [apply decode_state_Ok, E'|].
  intros l Hl.
  pose proof (split_by_flags_cover s' (state_map self) l E'); tauto.
Qed.

Lemma result_never_rejects_witness :
  exists s' fs',
    result problem_without_In [true; true] (Load "C1" "P1" "SFO") = Ok s'
    /\ List.length s' = List.length (state_map problem_without_In)
    /\ decode_state s' (state_map problem_without_In) = Ok fs'
    /\ forall l, ~ In l (state_map problem_without_In) ->
                 ~ In l (pos fs') /\ ~ In l (neg fs').
Proof.
  apply (result_never_rejects problem_without_In [true; true]
           (Load "C1" "P1" "SFO")).
  reflexivity.
Defined.

(** C9, as stated, fails: [Load(C1, P1, SFO)] adds [In(C1, P1)], which the
    state map of [problem_without_In] lacks, and [result] returns an encoded
    state all the same, in whose decoding the literal does not occur. *)
Lemma result_drops_literal_outside_map :
  In (In_ "C1" "P1") (effect_add (Load "C1" "P1" "SFO"))
  /\ ~ In (In_ "C1" "P1") (state_map problem_without_In)
  /\ result problem_without_In [true; true] (Load "C1" "P1" "SFO")
     = Ok [false; true]
  /\ decode_state [false; true] (state_map problem_without_In)
     = Ok (mkFluentState [At "P1" "SFO"] [At "C1" "SFO"]).
Proof.
  split; [left; reflexivity|].
  split; [|split; reflexivity].
  simpl; intros [H|[H|[]]]; discriminate H.
Qed.

(** ** Reachable states *)

(** Every reachable state of a constructed problem is an encoding. *)
Lemma reachable_encoded (self : AirCargoProblem) (s : list bool) :
  encoded_over (state_map self) (initial_state_TF self) ->
  reachable self s -> encoded_over (state_map self) s.
Proof.
  intros H0 H; induction H as [|s s' acts a _ _ _ _ R]; [exact H0|].
  exact (result_encoded self s s' a R).
Qed.

Lemma constructed_initial_encoded (cargos planes airports : list string)
  (initial : FluentState) (goal : list Expr) :
  let self := AirCargoProblem_ cargos planes airports initial goal in
  encoded_over (state_map self) (initial_state_TF self).
Proof. exists initial; reflexivity. Qed.

(** C3.  Every state reachable from the initial state of a constructed
    problem by actions drawn from [actions] decodes, and the decoded true
    and false literals are disjoint and together are exactly the literals of
    the state map.  A well-formed initial state, whose two lists partition
    the state map, is one without repeated literals. *)
Theorem reachable_partitions (cargos planes airports : list string)
  (initial : FluentState) (goal : list Expr) (s : list bool) :
  let self := AirCargoProblem_ cargos planes airports initial goal in
  NoDup (pos initial ++ neg initial) ->
  reachable self s ->
  exists fs,
    decode_state s (state_map self) = Ok fs
    /\ partitions (state_map self) fs.
Proof.
  intros self _ H.
  apply reachable_encoded in H;
    [|apply constructed_initial_encoded].
  exists (split_by_flags s (state_map self)); split.
  - apply decode_state_Ok, encoded_over_length, H.
  - apply encoded_partitions, H.
Qed.

(** Membership of an explicit action in an explicit list. *)
Ltac in_explicit_list :=
  vm_compute; repeat (first [left; reflexivity | right]).

(** One transition of [reachable] between explicit states. *)
Ltac reach_by s a :=
  eapply (reach_result _ s _ _ a);
  [ | vm_compute; reflexivity | in_explicit_list | vm_compute; reflexivity ].

Lemma reachable_partitions_witness :
  exists fs,
    decode_state [false; true; true; true; false; false;
                  false; false; true; false; false; false]
                 (state_map air_cargo_p1) = Ok fs
    /\ partitions (state_map air_cargo_p1) fs.
Proof.
  apply (reachable_partitions ["C1"; "C2"] ["P1"; "P2"] ["JFK"; "SFO"]
           (mkFluentState
              [At "C1" "SFO"; At "C2" "JFK"; At "P1" "SFO"; At "P2" "JFK"]
              [At "C2" "SFO"; In_ "C2" "P1"; In_ "C2" "P2"; At "C1" "JFK";
               In_ "C1" "P1"; In_ "C1" "P2"; At "P1" "JFK"; At "P2" "SFO"])
           [At "C1" "JFK"; At "C2" "SFO"]).
  - repeat constructor; simpl; intuition discriminate.
  - reach_by (initial_state_TF air_cargo_p1) (Load "C1" "P1" "SFO").
    apply reach_initial.
Defined.

(** ** The relaxed-plan heuristic *)

Lemma count_unmet_filter (x : FluentState) (goal_ : list Expr) (count : nat) :
  count_unmet x goal_ count
  = count + List.length (filter (fun g => memb g (neg x)) goal_).
Proof.
  revert count; induction goal_ as [|g rest IH]; intros count; simpl;
    [lia|].
  rewrite IH; destruct (memb g (neg x)); simpl; lia.
Qed.

(** A literal is true, false or outside the map, and only one of these. *)
Lemma partitions_flags (m : list Expr) (fs : FluentState) (g : Expr) :
  partitions m fs ->
  (memb g (pos fs) = true /\ memb g (neg fs) = false /\ In g m)
  \/ (memb g (pos fs) = false /\ memb g (neg fs) = true /\ In g m)
  \/ (memb g (pos fs) = false /\ memb g (neg fs) = false /\ ~ In g m).
Proof.
  intros [Hd Hc]; specialize (Hd g); specialize (Hc g).
  destruct (memb g (pos fs)) eqn:Ep;
    [apply memb_In in Ep | apply memb_notIn in Ep];
    (destruct (memb g (neg fs)) eqn:En;
     [apply memb_In in En | apply memb_notIn in En]);
    intuition congruence.
Qed.

(** Between two partitions of the same map, the unmet goal entries change
    by the entries made true and the entries made false. *)
Lemma unmet_accounting (m : list Expr) (fs fs' : FluentState)
  (goal_ : list Expr) :
  partitions m fs -> partitions m fs' ->
  List.length (filter (fun g => memb g (neg fs')) goal_)
  + made_true goal_ fs fs'
  = List.length (filter (fun g => memb g (neg fs)) goal_)
    + made_false goal_ fs fs'.
Proof.
  intros H H'; unfold made_true, made_false.
  induction goal_ as [|g rest IH]; simpl; [reflexivity|].
  destruct (partitions_flags m fs g H) as [(-> & -> & I)|[(-> & -> & I)|(-> & -> & I)]];
    destruct (partitions_flags m fs' g H')
      as [(-> & -> & I')|[(-> & -> & I')|(-> & -> & I')]];
    simpl; try contradiction; lia.
Qed.

Lemma filter_none {A : Type} (f : A -> bool) (l : list A) :
  (forall x, In x l -> f x = false) -> filter f l = [].
Proof.
  induction l as [|x l IH]; intros H; simpl; [reflexivity|].
  rewrite (H x (or_introl eq_refl)); apply IH.
  intros y Hy; apply H; right; exact Hy.
Qed.

(** C8, amended.  For every reachable state [s] and every action [a] of
    [actions s], the heuristic after [result s a] is the heuristic at [s]
    minus the goal entries the action makes true plus the goal entries it
    makes false.  So it is exactly one less when the action makes exactly
    one previously false goal entry true and makes no goal entry false, and
    it does not increase when the action makes no goal entry false, in
    particular when it deletes no goal literal. *)
Theorem h_ignore_preconditions_step (cargos planes airports : list string)
  (initial : FluentState) (goal_ : list Expr) (s : list bool)
  (acts : list Action) (a : Action) :
  let self := AirCargoProblem_ cargos planes airports initial goal_ in
  reachable self s ->
  actions self s = Ok acts ->
  In a acts ->
  heuristic_accounting self s a.
Proof.
  intros self Hs _ _.
  apply reachable_encoded in Hs; [|apply constructed_initial_encoded].
  pose proof (encoded_over_length _ _ Hs) as E.
  destruct (result_decoded self s a E) as (s' & R & Hs' & Hx).
  pose proof (encoded_over_length _ _ Hs') as E'.
  assert (Hkeep : (forall g, In g (goal self) -> ~ In g (effect_rem a)) ->
                  made_false (goal self)
                    (split_by_flags s (state_map self))
                    (split_by_flags s' (state_map self)) = 0).
  { intros Hno; unfold made_false; rewrite filter_none; [reflexivity|].
    intros g Hg; apply andb_false_iff.
    destruct (memb g (pos (split_by_flags s (state_map self)))) eqn:Ep;
      [|left; reflexivity].
    right; apply memb_notIn; apply memb_In in Ep.
    specialize (Hno g Hg); destruct (Hx g) as [_ Hn]; simpl in Hn; tauto. }
  exists s', (split_by_flags s (state_map self)),
         (split_by_flags s' (state_map self)).
  unfold h_ignore_preconditions; cbn [state].
  rewrite (decode_state_Ok _ _ E), (decode_state_Ok _ _ E'); cbn [bind].
  do 2 eexists.
  split; [reflexivity|]; split; [exact R|].
  split; [reflexivity|]; split; [reflexivity|]; split; [reflexivity|].
  rewrite !count_unmet_filter; cbn [Nat.add].
  pose proof (unmet_accounting (state_map self) _ _ (goal self)
                (encoded_partitions _ _ Hs) (encoded_partitions _ _ Hs'))
    as Hacc.
  repeat split; try lia.
  intros Hno; specialize (Hkeep Hno); lia.
Qed.

Lemma h_ignore_preconditions_step_witness :
  heuristic_accounting air_cargo_p1
    [false; true; false; true; false; false;
     false; false; true; false; true; false]
    (Unload "C1" "P1" "JFK").
Proof.
  eapply (h_ignore_preconditions_step ["C1"; "C2"] ["P1"; "P2"]
            ["JFK"; "SFO"]
            (mkFluentState
               [At "C1" "SFO"; At "C2" "JFK"; At "P1" "SFO"; At "P2" "JFK"]
               [At "C2" "SFO"; In_ "C2" "P1"; In_ "C2" "P2"; At "C1" "JFK";
                In_ "C1" "P1"; In_ "C1" "P2"; At "P1" "JFK"; At "P2" "SFO"])
            [At "C1" "JFK"; At "C2" "SFO"]).
  - reach_by [false; true; true; true; false; false;
              false; false; true; false; false; false]
             (Fly "P1" "SFO" "JFK").
    reach_by (initial_state_TF air_cargo_p1) (Load "C1" "P1" "SFO").
    apply reach_initial.
  - vm_compute; reflexivity.
  - in_explicit_list.
Defined.

(** C8, as stated, fails in its second half: in the sample instance, once
    [C1] has been delivered to [JFK], loading it again there is applicable
    and takes the heuristic from 1 to 2. *)
Lemma h_ignore_preconditions_can_increase :
  let s := [false; true; false; true; false; false;
            false; true; false; false; true; false] in
  let a := Load "C1" "P1" "JFK" in
  reachable air_cargo_p1 s
  /\ (exists acts, actions air_cargo_p1 s = Ok acts /\ In a acts)
  /\ (exists s', result air_cargo_p1 s a = Ok s'
                 /\ h_ignore_preconditions air_cargo_p1 (mkNode s) = Ok 1
                 /\ h_ignore_preconditions air_cargo_p1 (mkNode s') = Ok 2)
  /\ ~ heuristic_not_increased air_cargo_p1 s a.
Proof.
  intros s a; split; [|split; [|split]].
  - reach_by [false; true; false; true; false; false;
              false; false; true; false; true; false]
             (Unload "C1" "P1" "JFK").
    reach_by [false; true; true; true; false; false;
              false; false; true; false; false; false]
             (Fly "P1" "SFO" "JFK").
    reach_by (initial_state_TF air_cargo_p1) (Load "C1" "P1" "SFO").
    apply reach_initial.
  - eexists; split; [vm_compute; reflexivity | in_explicit_list].
  - eexists; split; [vm_compute; reflexivity|]; split; reflexivity.
  - intros H.
    specialize (H _ 1 2 eq_refl eq_refl eq_refl); lia.
Qed.


(** ** Undoing an action *)

(** Two sparse states with the same true literals on the map encode to the
    same vector. *)
Lemma encode_state_ext (fs fs' : FluentState) (m : list Expr) :
  (forall l, In l m -> (In l (pos fs) <-> In l (pos fs'))) ->
  encode_state fs m = encode_state fs' m.
Proof.
  intros H; apply map_ext_in; intros l Hl.
  specialize (H l Hl); rewrite <- !memb_In in H.
  destruct (memb l (pos fs)), (memb l (pos fs')); intuition congruence.
Qed.

(** An encoded state is the encoding of its own decoding. *)
Lemma encoded_fixpoint (m : list Expr) (s : list bool) :
  encoded_over m s -> encode_state (split_by_flags s m) m = s.
Proof.
  intros [fs ->]; apply encode_state_ext; intros l Hl.
  rewrite In_split_encode_pos; tauto.
Qed.

(** [b] undoes [a] when it adds what [a] deletes and deletes what [a] adds,
    provided [a] deletes only true literals and adds only false ones. *)
Lemma result_undo (self : AirCargoProblem) (s : list bool) (a b : Action) :
  encoded_over (state_map self) s ->
  effect_add b = effect_rem a ->
  effect_rem b = effect_add a ->
  (forall x, In x (effect_rem a) ->
             In x (pos (split_by_flags s (state_map self)))) ->
  (forall x, In x (effect_add a) ->
             ~ In x (pos (split_by_flags s (state_map self)))) ->
  undone_by self s a b.
Proof.
  intros Hs Hab Hba Hrem Hadd.
  pose proof (encoded_over_length _ _ Hs) as E.
  destruct (result_decoded self s a E) as (s1 & R1 & Hs1 & Hx).
  exists s1; split; [exact R1|].
  unfold result at 1.
  rewrite (decode_state_Ok _ _ (encoded_over_length _ _ Hs1)); cbn [bind].
  f_equal.
  transitivity (encode_state (split_by_flags s (state_map self))
                             (state_map self));
    [|apply encoded_fixpoint, Hs].
  apply encode_state_ext; intros l Hl; cbn [pos].
  rewrite in_app_iff, filter_In, negb_true_iff, memb_notIn, Hab, Hba.
  destruct (Hx l) as [Hp _]; cbn zeta in Hp; rewrite Hp.
  specialize (Hrem l); specialize (Hadd l).
  destruct (In_dec_Expr l (effect_rem a)); tauto.
Qed.

(** C10, amended.  From every encoded state in which [Load(c, p, a)] is
    applicable, loading and then unloading returns the state itself; from
    every encoded state in which [Fly(p, from, to)] is applicable and in
    which [At(p, to)] is not true, flying there and back returns the state
    itself. *)
Theorem load_unload_and_fly_back (self : AirCargoProblem) (s : list bool)
  (acts : list Action) :
  encoded_over (state_map self) s ->
  actions self s = Ok acts ->
  (forall c p ap,
      In (Load c p ap) acts ->
      undone_by self s (Load c p ap) (Unload c p ap))
  /\ (forall p fr to,
        In (Fly p fr to) acts ->
        ~ holds self s (At p to) ->
        undone_by self s (Fly p fr to) (Fly p to fr)).
Proof.
  intros Hs Hacts; split.
  - intros c p ap Hin.
    destruct (actions_In self s acts _ Hacts Hin) as (_ & _ & Hn & Hp).
    apply (result_undo self s _ _ Hs); try reflexivity.
    + intros x [<-|[]]; apply Hp; simpl; auto.
    + intros x [<-|[]] Hx.
      destruct (encoded_partitions _ _ Hs) as [Hd _].
      apply (Hd (In_ c p)); split; [exact Hx|].
      apply Hn; simpl; auto.
  - intros p fr to Hin Hto.
    destruct (actions_In self s acts _ Hacts Hin) as (E & _ & _ & Hp).
    apply (result_undo self s _ _ Hs); try reflexivity.
    + intros x [<-|[]]; apply Hp; simpl; auto.
    + intros x [<-|[]] Hx; apply Hto.
      eexists; split; [apply decode_state_Ok, E | exact Hx].
Qed.

Lemma load_unload_and_fly_back_witness :
  undone_by air_cargo_p1 (initial_state_TF air_cargo_p1)
            (Load "C1" "P1" "SFO") (Unload "C1" "P1" "SFO")
  /\ undone_by air_cargo_p1 (initial_state_TF air_cargo_p1)
               (Fly "P1" "SFO" "JFK") (Fly "P1" "JFK" "SFO").
Proof.
  destruct (load_unload_and_fly_back air_cargo_p1
              (initial_state_TF air_cargo_p1)
              [Load "C2" "P2" "JFK"; Load "C1" "P1" "SFO";
               Fly "P2" "JFK" "SFO"; Fly "P1" "SFO" "JFK"])
    as [HL HF].
  - eexists; reflexivity.
  - reflexivity.
  - split.
    + apply HL; in_explicit_list.
    + apply HF; [in_explicit_list|].
      intros (fs & D & H); vm_compute in D; inversion D; subst fs.
      simpl in H; intuition discriminate.
Defined.

(** C10, as stated, fails for the flights: in the initial state of
    [problem_plane_twice] the plane is at both airports, [Fly(P1, SFO, JFK)]
    is applicable, and flying to JFK and back leaves the plane at SFO
    only. *)
Lemma fly_back_not_identity :
  encoded_over (state_map problem_plane_twice) [true; true]
  /\ initial_state_TF problem_plane_twice = [true; true]
  /\ (exists acts, actions problem_plane_twice [true; true] = Ok acts
                   /\ In (Fly "P1" "SFO" "JFK") acts)
  /\ result problem_plane_twice [true; true] (Fly "P1" "SFO" "JFK")
     = Ok [false; true]
  /\ result problem_plane_twice [false; true] (Fly "P1" "JFK" "SFO")
     = Ok [true; false]
  /\ ~ undone_by problem_plane_twice [true; true]
         (Fly "P1" "SFO" "JFK") (Fly "P1" "JFK" "SFO").
Proof.
  split; [exists (mkFluentState [At "P1" "SFO"; At "P1" "JFK"] []);
          reflexivity|].
  split; [reflexivity|].
  split; [eexists; split; [vm_compute; reflexivity | in_explicit_list]|].
  split; [reflexivity|]; split; [reflexivity|].
  intros (s1 & R1 & R2).
  vm_compute in R1; inversion R1; subst s1.
  vm_compute in R2; discriminate R2.
Qed.


(** ** The sample instance *)

(** C5.  In the sample instance the six actions of the plan are grounded
    actions of the problem, applying [result] along the plan from the
    initial state returns a state, and [goal_test] is true on it. *)
Theorem p1_plan_reaches_goal :
  incl p1_plan (actions_list air_cargo_p1)
  /\ exists s,
      execute air_cargo_p1 (initial_state_TF air_cargo_p1) p1_plan = Ok s
      /\ goal_test air_cargo_p1 s = Ok true.
Proof.
  split.
  - intros a Ha; unfold p1_plan in Ha; simpl in Ha.
    repeat (destruct Ha as [<-|Ha]; [in_explicit_list|]).
    contradiction.
  - eexists; split; vm_compute; reflexivity.
Qed.

(** C6, amended.  In the initial state of the sample instance [actions]
    returns, in grounding order, [Load(C2, P2, JFK)], [Load(C1, P1, SFO)],
    [Fly(P2, JFK, SFO)] and [Fly(P1, SFO, JFK)] and nothing else: each plane
    can only leave the airport it is at, every returned load has its plane
    and its cargo at the airport, and no unload is returned. *)
Theorem p1_initial_actions :
  exists fluents acts,
    decode_state (initial_state_TF air_cargo_p1) (state_map air_cargo_p1)
    = Ok fluents
    /\ actions air_cargo_p1 (initial_state_TF air_cargo_p1) = Ok acts
    /\ acts = [Load "C2" "P2" "JFK"; Load "C1" "P1" "SFO";
              Fly "P2" "JFK" "SFO"; Fly "P1" "SFO" "JFK"]
    /\ ~ In (Fly "P1" "JFK" "SFO") acts
    /\ ~ In (Fly "P2" "SFO" "JFK") acts
    /\ (forall c p ap, In (Load c p ap) acts ->
                       In (At p ap) (pos fluents)
                       /\ In (At c ap) (pos fluents)
                       /\ ~ In (In_ c p) (pos fluents))
    /\ (forall c p ap, ~ In (Unload c p ap) acts).
Proof.
  do 2 eexists; split; [reflexivity|]; split; [reflexivity|].
  split; [reflexivity|].
  split; [simpl; intuition discriminate|].
  split; [simpl; intuition discriminate|].
  split.
  - intros c p ap H; simpl in H.
    destruct H as [H|[H|[H|[H|[]]]]]; try discriminate H;
      inversion H; subst; simpl;
      (split; [tauto|split; [tauto|intuition discriminate]]).
  - intros c p ap H; simpl in H.
    destruct H as [H|[H|[H|[H|[]]]]]; discriminate H.
Qed.

(** C6, as stated, fails: the listed [Fly(P1, JFK, SFO)] needs [At(P1, JFK)],
    which is false in the initial state, so the returned actions are not
    the listed ones. *)
Lemma p1_initial_actions_not_as_listed :
  In (Fly "P1" "JFK" "SFO") p1_listed_actions
  /\ (exists acts,
        actions air_cargo_p1 (initial_state_TF air_cargo_p1) = Ok acts
        /\ ~ In (Fly "P1" "JFK" "SFO") acts)
  /\ ~ (exists acts,
          actions air_cargo_p1 (initial_state_TF air_cargo_p1) = Ok acts
          /\ same_actions acts p1_listed_actions).
Proof.
  assert (Hnot : forall acts,
             actions air_cargo_p1 (initial_state_TF air_cargo_p1) = Ok acts ->
             ~ In (Fly "P1" "JFK" "SFO") acts).
  { intros acts H; vm_compute in H; inversion H; subst acts.
    simpl; intuition discriminate. }
  assert (Hin : In (Fly "P1" "JFK" "SFO") p1_listed_actions)
    by in_explicit_list.
  split; [exact Hin|]; split.
  - eexists; split; [reflexivity|]; apply Hnot; reflexivity.
  - intros (acts & H & Hsame).
    apply (Hnot acts H), Hsame, Hin.
Qed.


(** ** Further properties of effect application *)

Lemma holds_iff (self : AirCargoProblem) (s : list bool) (x : Expr) :
  List.length s = List.length (state_map self) ->
  holds self s x <-> In x (pos (split_by_flags s (state_map self))).
Proof.
  intros E; unfold holds; rewrite (decode_state_Ok _ _ E); split.
  - intros (fs & D & H); inversion D; subst; exact H.
  - intros H; eexists; split; [reflexivity | exact H].
Qed.

Lemma fails_iff (self : AirCargoProblem) (s : list bool) (x : Expr) :
  List.length s = List.length (state_map self) ->
  fails self s x <-> In x (neg (split_by_flags s (state_map self))).
Proof.
  intros E; unfold fails; rewrite (decode_state_Ok _ _ E); split.
  - intros (fs & D & H); inversion D; subst; exact H.
  - intros H; eexists; split; [reflexivity | exact H].
Qed.

Lemma result_length (self : AirCargoProblem) (s s' : list bool)
  (a : Action) :
  result self s a = Ok s' ->
  List.length s = List.length (state_map self)
  /\ List.length s' = List.length (state_map self).
Proof.
  intros R; split; [|apply encoded_over_length, (result_encoded _ _ _ _ R)].
  unfold result in R.
  destruct (decode_state s (state_map self)) as [fs|] eqn:D; [|discriminate].
  apply decode_state_inv in D; tauto.
Qed.

(** Two applications of [result] agree when they make the same literals of
    the map true. *)
Lemma result_ext (self : AirCargoProblem) (s t : list bool) (a b : Action) :
  List.length s = List.length (state_map self) ->
  List.length t = List.length (state_map self) ->
  (forall x, In x (state_map self) ->
     ((In x (pos (split_by_flags s (state_map self)))
       /\ ~ In x (effect_rem a)) \/ In x (effect_add a))
     <->
     ((In x (pos (split_by_flags t (state_map self)))
       /\ ~ In x (effect_rem b)) \/ In x (effect_add b))) ->
  result self s a = result self t b.
Proof.
  intros Es Et H; unfold result.
  rewrite (decode_state_Ok _ _ Es), (decode_state_Ok _ _ Et); cbn [bind].
  f_equal; apply encode_state_ext; intros x Hx; cbn [pos].
  rewrite !in_app_iff, !filter_In, !negb_true_iff, !memb_notIn.
  apply H, Hx.
Qed.

(** A literal is true after [result] iff it is in the map and was true and
    is not deleted, or is added. *)
Lemma result_holds (self : AirCargoProblem) (s s' : list bool) (a : Action)
  (z : Expr) :
  result self s a = Ok s' ->
  holds self s' z <->
  In z (state_map self)
  /\ ((holds self s z /\ ~ In z (effect_rem a)) \/ In z (effect_add a)).
Proof.
  intros R; destruct (result_length _ _ _ _ R) as [E E'].
  destruct (result_decoded self s a E) as (s1 & R1 & _ & Hx).
  rewrite R in R1; inversion R1; subst s1; clear R1.
  rewrite (holds_iff _ _ _ E'), (holds_iff _ _ _ E).
  destruct (Hx z) as [Hp _]; exact Hp.
Qed.

(** Every other literal of the map is false after [result]. *)
Lemma result_fails (self : AirCargoProblem) (s s' : list bool) (a : Action)
  (z : Expr) :
  result self s a = Ok s' ->
  fails self s' z <->
  In z (state_map self)
  /\ ~ ((holds self s z /\ ~ In z (effect_rem a)) \/ In z (effect_add a)).
Proof.
  intros R; destruct (result_length _ _ _ _ R) as [E E'].
  destruct (result_decoded self s a E) as (s1 & R1 & _ & Hx).
  rewrite R in R1; inversion R1; subst s1; clear R1.
  rewrite (fails_iff _ _ _ E'), (holds_iff _ _ _ E).
  destruct (Hx z) as [_ Hn]; exact Hn.
Qed.

Lemma holds_in_map (self : AirCargoProblem) (s : list bool) (z : Expr) :
  holds self s z -> In z (state_map self).
Proof.
  intros (fs & D & H); apply decode_state_inv in D as [E ->].
  apply (split_by_flags_cover s _ z E); auto.
Qed.

(** In an encoded state, false means in the map and not true. *)
Lemma encoded_fails_iff (self : AirCargoProblem) (s : list bool) (z : Expr) :
  encoded_over (state_map self) s ->
  fails self s z <-> In z (state_map self) /\ ~ holds self s z.
Proof.
  intros Hs; pose proof (encoded_over_length _ _ Hs) as E.
  rewrite (fails_iff _ _ _ E), (holds_iff _ _ _ E).
  apply encoded_neg_iff, Hs.
Qed.

(** X1.  Frame and effect of [result] on an encoded state: afterwards every
    added literal of the map is true, every deleted literal of the map that
    is not also added is false, and a literal that is neither added nor
    deleted is true, respectively false, exactly when it was before. *)
Theorem result_frame (self : AirCargoProblem) (s s' : list bool)
  (a : Action) :
  encoded_over (state_map self) s ->
  result self s a = Ok s' ->
  (forall x, In x (state_map self) -> In x (effect_add a) ->
             holds self s' x)
  /\ (forall x, In x (state_map self) -> In x (effect_rem a) ->
                ~ In x (effect_add a) -> fails self s' x)
  /\ (forall x, ~ In x (effect_add a) -> ~ In x (effect_rem a) ->
                (holds self s' x <-> holds self s x)
                /\ (fails self s' x <-> fails self s x)).
Proof.
  intros Hs R; split; [|split].
  - intros x Hm Ha; apply (result_holds _ _ _ _ _ R); tauto.
  - intros x Hm Hr Hna; apply (result_fails _ _ _ _ _ R); tauto.
  - intros x Hna Hnr.
    rewrite (result_holds _ _ _ _ _ R), (result_fails _ _ _ _ _ R),
      (encoded_fails_iff _ _ _ Hs).
    pose proof (holds_in_map self s x); tauto.
Qed.

Lemma result_frame_witness :
  (forall x, In x (state_map air_cargo_p1) ->
             In x (effect_add (Load "C1" "P1" "SFO")) ->
             holds air_cargo_p1
               [false; true; true; true; false; false;
                false; false; true; false; false; false] x)
  /\ (forall x, In x (state_map air_cargo_p1) ->
                In x (effect_rem (Load "C1" "P1" "SFO")) ->
                ~ In x (effect_add (Load "C1" "P1" "SFO")) ->
                fails air_cargo_p1
                  [false; true; true; true; false; false;
                   false; false; true; false; false; false] x)
  /\ (forall x, ~ In x (effect_add (Load "C1" "P1" "SFO")) ->
                ~ In x (effect_rem (Load "C1" "P1" "SFO")) ->
                (holds air_cargo_p1
                   [false; true; true; true; false; false;
                    false; false; true; false; false; false] x
                 <-> holds air_cargo_p1 (initial_state_TF air_cargo_p1) x)
                /\ (fails air_cargo_p1
                      [false; true; true; true; false; false;
                       false; false; true; false; false; false] x
                    <-> fails air_cargo_p1
                          (initial_state_TF air_cargo_p1) x)).
Proof.
  apply (result_frame air_cargo_p1 (initial_state_TF air_cargo_p1)).
  - eexists; reflexivity.
  - reflexivity.
Defined.

(** X2.  [result] is idempotent: applying an action to the state it has
    just produced returns that state again, whatever the action and
    whether or not it was applicable. *)
Theorem result_idempotent (self : AirCargoProblem) (s s1 : list bool)
  (a : Action) :
  result self s a = Ok s1 -> result self s1 a = Ok s1.
Proof.
  intros R.
  destruct (result_length _ _ _ _ R) as [E E1].
  destruct (result_decoded self s a E) as (s' & R' & _ & Hx).
  rewrite R in R'; inversion R'; subst s'; clear R'.
  rewrite <- R; apply result_ext; [exact E1 | exact E|].
  intros x Hm; destruct (Hx x) as [Hp _]; cbn zeta in Hp.
  rewrite Hp; tauto.
Qed.

Lemma result_idempotent_witness :
  result air_cargo_p1
    [false; true; true; true; false; false;
     false; false; true; false; false; false]
    (Load "C1" "P1" "SFO")
  = Ok [false; true; true; true; false; false;
        false; false; true; false; false; false].
Proof.
  apply (result_idempotent air_cargo_p1 (initial_state_TF air_cargo_p1)).
  reflexivity.
Defined.

(** X3.  Two actions neither of which deletes what the other adds commute:
    applying them in either order from a state of the map's length returns
    the same state. *)
Theorem result_commutes (self : AirCargoProblem) (s : list bool)
  (a b : Action) :
  List.length s = List.length (state_map self) ->
  (forall x, In x (effect_add a) -> ~ In x (effect_rem b)) ->
  (forall x, In x (effect_add b) -> ~ In x (effect_rem a)) ->
  exists sa sb sab,
    result self s a = Ok sa
    /\ result self s b = Ok sb
    /\ result self sa b = Ok sab
    /\ result self sb a = Ok sab.
Proof.
  intros E Hab Hba.
  destruct (result_decoded self s a E) as (sa & Ra & Ea & Ha).
  destruct (result_decoded self s b E) as (sb & Rb & Eb & Hb).
  apply encoded_over_length in Ea, Eb.
  destruct (result_decoded self sa b Ea) as (sab & Rab & _ & _).
  exists sa, sb, sab; repeat split; try assumption.
  rewrite <- Rab; apply result_ext; [exact Eb | exact Ea|].
  intros x Hm.
  destruct (Ha x) as [Hpa _]; destruct (Hb x) as [Hpb _].
  cbn zeta in Hpa, Hpb; rewrite Hpa, Hpb.
  specialize (Hab x); specialize (Hba x); tauto.
Qed.

Lemma result_commutes_witness :
  exists sa sb sab,
    result air_cargo_p1 (initial_state_TF air_cargo_p1)
           (Load "C1" "P1" "SFO") = Ok sa
    /\ result air_cargo_p1 (initial_state_TF air_cargo_p1)
              (Fly "P2" "JFK" "SFO") = Ok sb
    /\ result air_cargo_p1 sa (Fly "P2" "JFK" "SFO") = Ok sab
    /\ result air_cargo_p1 sb (Load "C1" "P1" "SFO") = Ok sab.
Proof.
  apply (result_commutes air_cargo_p1 (initial_state_TF air_cargo_p1)).
  - reflexivity.
  - intros x [<-|[]] [H|[]]; discriminate H.
  - intros x [<-|[]] [H|[]]; discriminate H.
Defined.


(** ** Further properties of the grounding *)

Lemma Load_inj (c p ap c' p' ap' : string) :
  Load c p ap = Load c' p' ap' -> c = c' /\ p = p' /\ ap = ap'.
Proof. intros H; inversion H; auto. Qed.

Lemma Unload_inj (c p ap c' p' ap' : string) :
  Unload c p ap = Unload c' p' ap' -> c = c' /\ p = p' /\ ap = ap'.
Proof. intros H; inversion H; auto. Qed.

Lemma Fly_inj (p fr to p' fr' to' : string) :
  Fly p fr to = Fly p' fr' to' -> p = p' /\ fr = fr' /\ to = to'.
Proof. intros H; inversion H; auto. Qed.

Lemma load_actions_iff (self : AirCargoProblem) (a : Action) :
  In a (load_actions self) <->
  exists c p ap,
    In c (cargos self) /\ In p (planes self) /\ In ap (airports self)
    /\ a = Load c p ap.
Proof.
  unfold load_actions; rewrite in_flat_map; split.
  - intros (ap & Hap & H); apply in_flat_map in H.
    destruct H as (p & Hp & H); apply in_map_iff in H.
    destruct H as (c & <- & Hc); eauto 10.
  - intros (c & p & ap & Hc & Hp & Hap & ->).
    exists ap; split; [exact Hap|]; apply in_flat_map.
    exists p; split; [exact Hp|]; apply (in_map (fun c => Load c p ap)), Hc.
Qed.

Lemma unload_actions_iff (self : AirCargoProblem) (a : Action) :
  In a (unload_actions self) <->
  exists c p ap,
    In c (cargos self) /\ In p (planes self) /\ In ap (airports self)
    /\ a = Unload c p ap.
Proof.
  unfold unload_actions; rewrite in_flat_map; split.
  - intros (ap & Hap & H); apply in_flat_map in H.
    destruct H as (p & Hp & H); apply in_map_iff in H.
    destruct H as (c & <- & Hc); eauto 10.
  - intros (c & p & ap & Hc & Hp & Hap & ->).
    exists ap; split; [exact Hap|]; apply in_flat_map.
    exists p; split; [exact Hp|]; apply (in_map (fun c => Unload c p ap)), Hc.
Qed.

Lemma fly_actions_iff (self : AirCargoProblem) (a : Action) :
  In a (fly_actions self) <->
  exists p fr to,
    In p (planes self) /\ In fr (airports self) /\ In to (airports self)
    /\ fr <> to /\ a = Fly p fr to.
Proof.
  unfold fly_actions; rewrite in_flat_map; split.
  - intros (fr & Hfr & H); apply in_flat_map in H.
    destruct H as (to & Hto & H).
    destruct (String.eqb fr to) eqn:E; simpl in H; [contradiction|].
    apply in_map_iff in H; destruct H as (p & <- & Hp).
    apply String.eqb_neq in E; eauto 10.
  - intros (p & fr & to & Hp & Hfr & Hto & N & ->).
    exists fr; split; [exact Hfr|]; apply in_flat_map.
    exists to; split; [exact Hto|].
    apply String.eqb_neq in N; rewrite N; simpl.
    apply (in_map (fun p => Fly p fr to)), Hp.
Qed.

(** Membership in the list [get_actions] returns. *)
Lemma In_get_actions (self : AirCargoProblem) (a : Action) :
  In a (get_actions self) <->
  (exists c p ap,
      In c (cargos self) /\ In p (planes self) /\ In ap (airports self)
      /\ a = Load c p ap)
  \/ (exists c p ap,
        In c (cargos self) /\ In p (planes self) /\ In ap (airports self)
        /\ a = Unload c p ap)
  \/ (exists p fr to,
        In p (planes self) /\ In fr (airports self)
        /\ In to (airports self) /\ fr <> to /\ a = Fly p fr to).
Proof.
  unfold get_actions.
  rewrite !in_app_iff, load_actions_iff, unload_actions_iff, fly_actions_iff.
  tauto.
Qed.

(** X4.  The grounded actions are exactly the instances of the three
    schemas over the object lists: every load and unload of a cargo, a plane
    and an airport of the problem, and every flight of a plane of the
    problem between two different airports of the problem. *)
Theorem get_actions_iff (self : AirCargoProblem) (a : Action) :
  In a (get_actions self) <->
  (exists c p ap,
      In c (cargos self) /\ In p (planes self) /\ In ap (airports self)
      /\ a = Load c p ap)
  \/ (exists c p ap,
        In c (cargos self) /\ In p (planes self) /\ In ap (airports self)
        /\ a = Unload c p ap)
  \/ (exists p fr to,
        In p (planes self) /\ In fr (airports self)
        /\ In to (airports self) /\ fr <> to /\ a = Fly p fr to).
Proof.
  unfold get_actions.
  rewrite !in_app_iff, load_actions_iff, unload_actions_iff, fly_actions_iff.
  tauto.
Qed.

Section NoDupFlatMap.

Context {A B : Type}.

Lemma NoDup_map_on (f : A -> B) (l : list A) :
  (forall x y, In x l -> In y l -> f x = f y -> x = y) ->
  NoDup l -> NoDup (map f l).
Proof.
  intros Hinj ND; induction ND as [|x l Hx ND IH]; simpl; constructor.
  - intros H; apply in_map_iff in H; destruct H as (y & Hy & Hin).
    apply Hx; rewrite <- (Hinj y x); simpl; auto.
  - apply IH; intros y z Hy Hz; apply Hinj; simpl; auto.
Qed.

Lemma NoDup_flat_map_on (f : A -> list B) (l : list A) :
  (forall x, In x l -> NoDup (f x)) ->
  (forall x y z, In x l -> In y l -> In z (f x) -> In z (f y) -> x = y) ->
  NoDup l -> NoDup (flat_map f l).
Proof.
  intros Hf Hinj ND; induction ND as [|x l Hx ND IH]; simpl; [constructor|].
  apply NoDup_app.
  - apply Hf; simpl; auto.
  - apply IH.
    + intros y Hy; apply Hf; simpl; auto.
    + intros y z w Hy Hz; apply Hinj; simpl; auto.
  - intros z Hz H; apply in_flat_map in H; destruct H as (y & Hy & Hzy).
    apply Hx; rewrite (Hinj x y z); simpl; auto.
Qed.

End NoDupFlatMap.

(** X5.  When no cargo, no plane and no airport is listed twice, no
    grounded action occurs twice in the list [get_actions] returns. *)
Theorem get_actions_NoDup (self : AirCargoProblem) :
  NoDup (cargos self) -> NoDup (planes self) -> NoDup (airports self) ->
  NoDup (get_actions self).
Proof.
  intros NC NP NA; unfold get_actions.
  assert (HL : NoDup (load_actions self)).
  { unfold load_actions; apply NoDup_flat_map_on; [| |exact NA].
    - intros ap _; apply NoDup_flat_map_on; [| |exact NP].
      + intros p _; apply NoDup_map_on; [|exact NC].
        intros c c' _ _ H; apply Load_inj in H; tauto.
      + intros p p' a _ _ H H'; apply in_map_iff in H, H'.
        destruct H as (c & <- & _), H' as (c' & H' & _).
        apply Load_inj in H'; intuition congruence.
    - intros ap ap' a _ _ H H'; apply in_flat_map in H, H'.
      destruct H as (p & _ & H), H' as (p' & _ & H').
      apply in_map_iff in H, H'.
      destruct H as (c & <- & _), H' as (c' & H' & _).
      apply Load_inj in H'; intuition congruence. }
  assert (HU : NoDup (unload_actions self)).
  { unfold unload_actions; apply NoDup_flat_map_on; [| |exact NA].
    - intros ap _; apply NoDup_flat_map_on; [| |exact NP].
      + intros p _; apply NoDup_map_on; [|exact NC].
        intros c c' _ _ H; apply Unload_inj in H; tauto.
      + intros p p' a _ _ H H'; apply in_map_iff in H, H'.
        destruct H as (c & <- & _), H' as (c' & H' & _).
        apply Unload_inj in H'; intuition congruence.
    - intros ap ap' a _ _ H H'; apply in_flat_map in H, H'.
      destruct H as (p & _ & H), H' as (p' & _ & H').
      apply in_map_iff in H, H'.
      destruct H as (c & <- & _), H' as (c' & H' & _).
      apply Unload_inj in H'; intuition congruence. }
  assert (HF : NoDup (fly_actions self)).
  { unfold fly_actions; apply NoDup_flat_map_on; [| |exact NA].
    - intros fr _; apply NoDup_flat_map_on; [| |exact NA].
      + intros to _; destruct (negb (String.eqb fr to)); [|constructor].
        apply NoDup_map_on; [|exact NP].
        intros p p' _ _ H; apply Fly_inj in H; tauto.
      + intros to to' a _ _ H H'.
        destruct (negb (String.eqb fr to)); [|contradiction].
        destruct (negb (String.eqb fr to')); [|contradiction].
        apply in_map_iff in H, H'.
        destruct H as (p & <- & _), H' as (p' & H' & _).
        apply Fly_inj in H'; intuition congruence.
    - intros fr fr' a _ _ H H'; apply in_flat_map in H, H'.
      destruct H as (to & _ & H), H' as (to' & _ & H').
      destruct (negb (String.eqb fr to)); [|contradiction].
      destruct (negb (String.eqb fr' to')); [|contradiction].
      apply in_map_iff in H, H'.
      destruct H as (p & <- & _), H' as (p' & H' & _).
      apply Fly_inj in H'; intuition congruence. }
  apply NoDup_app; [apply NoDup_app; [exact HL | exact HU|] | exact HF|].
  - intros a H H'.
    apply load_actions_iff in H; apply unload_actions_iff in H'.
    destruct H as (c & p & ap & _ & _ & _ & ->).
    destruct H' as (c' & p' & ap' & _ & _ & _ & H'); discriminate H'.
  - intros a H H'; apply fly_actions_iff in H'.
    destruct H' as (p' & fr & to & _ & _ & _ & _ & ->).
    apply in_app_iff in H; destruct H as [H|H].
    + apply load_actions_iff in H.
      destruct H as (c & p & ap & _ & _ & _ & H); discriminate H.
    + apply unload_actions_iff in H.
      destruct H as (c & p & ap & _ & _ & _ & H); discriminate H.
Qed.

Lemma get_actions_NoDup_witness : NoDup (get_actions air_cargo_p1).
Proof.
  apply get_actions_NoDup;
    repeat constructor; simpl; intuition discriminate.
Defined.


(** ** Applicable actions, schema by schema *)

Lemma actions_In_iff (self : AirCargoProblem) (s : list bool)
  (acts : list Action) (a : Action) :
  actions self s = Ok acts ->
  In a acts <->
  In a (actions_list self)
  /\ incl (precond_neg a) (neg (split_by_flags s (state_map self)))
  /\ incl (precond_pos a) (pos (split_by_flags s (state_map self))).
Proof.
  unfold actions; intros H.
  destruct (decode_state s (state_map self)) as [fs|] eqn:D; [|discriminate].
  apply decode_state_inv in D as [E ->]; simpl in H.
  inversion H; subst acts; clear H.
  rewrite filter_In, andb_true_iff, !issubset_incl; tauto.
Qed.

Lemma actions_length (self : AirCargoProblem) (s : list bool)
  (acts : list Action) :
  actions self s = Ok acts ->
  List.length s = List.length (state_map self).
Proof.
  unfold actions; intros H.
  destruct (decode_state s (state_map self)) as [fs|] eqn:D; [|discriminate].
  apply decode_state_inv in D; tauto.
Qed.

Lemma incl_two (x y : Expr) (l : list Expr) :
  incl [x; y] l <-> In x l /\ In y l.
Proof.
  unfold incl; simpl; split.
  - intros H; split; apply H; auto.
  - intros [Hx Hy] z [<-|[<-|[]]]; assumption.
Qed.

Lemma incl_one (x : Expr) (l : list Expr) : incl [x] l <-> In x l.
Proof.
  unfold incl; simpl; split.
  - intros H; apply H; auto.
  - intros Hx z [<-|[]]; assumption.
Qed.

(** X6.  In a constructed problem, which actions [actions] returns, schema
    by schema: a load iff its cargo, plane and airport are objects of the
    problem, plane and cargo are at the airport and the cargo is not yet in
    the plane (the literal is false); an unload iff the cargo is in the
    plane, the plane at the airport and the cargo's presence there false; a
    flight iff the plane and the two different airports are objects of the
    problem and the plane is at the origin. *)
Theorem actions_by_schema (cargos planes airports : list string)
  (initial : FluentState) (goal_ : list Expr) (s : list bool)
  (acts : list Action) :
  let self := AirCargoProblem_ cargos planes airports initial goal_ in
  actions self s = Ok acts ->
  (forall c p ap,
      In (Load c p ap) acts <->
      In c cargos /\ In p planes /\ In ap airports
      /\ holds self s (At p ap) /\ holds self s (At c ap)
      /\ fails self s (In_ c p))
  /\ (forall c p ap,
        In (Unload c p ap) acts <->
        In c cargos /\ In p planes /\ In ap airports
        /\ holds self s (In_ c p) /\ holds self s (At p ap)
        /\ fails self s (At c ap))
  /\ (forall p fr to,
        In (Fly p fr to) acts <->
        In p planes /\ In fr airports /\ In to airports /\ fr <> to
        /\ holds self s (At p fr)).
Proof.
  intros self H.
  pose proof (actions_length _ _ _ H) as E.
  assert (HL : actions_list self = get_actions self) by reflexivity.
  split; [|split]; intros x y z;
    rewrite (actions_In_iff _ _ _ _ H), HL, In_get_actions,
      ?(holds_iff _ _ _ E), ?(fails_iff _ _ _ E);
    cbn [Load Unload Fly Action_ precond_pos precond_neg fst snd];
    rewrite ?incl_two, ?incl_one.
  - split.
    + intros ([(c & p & ap & Hc & Hp & Ha & Heq)
              |[(c & p & ap & _ & _ & _ & Heq)
               |(p & fr & to & _ & _ & _ & _ & Heq)]] & Hn & Hp1 & Hp2);
        try discriminate Heq.
      apply Load_inj in Heq; destruct Heq as (-> & -> & ->); tauto.
    + intros (Hc & Hp & Ha & H1 & H2 & H3).
      split; [left; exists x, y, z; tauto | tauto].
  - split.
    + intros ([(c & p & ap & _ & _ & _ & Heq)
              |[(c & p & ap & Hc & Hp & Ha & Heq)
               |(p & fr & to & _ & _ & _ & _ & Heq)]] & Hn & Hp1 & Hp2);
        try discriminate Heq.
      apply Unload_inj in Heq; destruct Heq as (-> & -> & ->); tauto.
    + intros (Hc & Hp & Ha & H1 & H2 & H3).
      split; [right; left; exists x, y, z; tauto | tauto].
  - split.
    + intros ([(c & p & ap & _ & _ & _ & Heq)
              |[(c & p & ap & _ & _ & _ & Heq)
               |(p & fr & to & Hp & Hf & Ht & N & Heq)]] & Hn & Hp1);
        try discriminate Heq.
      apply Fly_inj in Heq; destruct Heq as (-> & -> & ->); tauto.
    + intros (Hp & Hf & Ht & N & H1).
      split; [right; right; exists x, y, z; tauto|].
      split; [intros w []| exact H1].
Qed.

Lemma actions_by_schema_witness :
  (forall c p ap,
      In (Load c p ap)
         [Load "C2" "P2" "JFK"; Load "C1" "P1" "SFO";
          Fly "P2" "JFK" "SFO"; Fly "P1" "SFO" "JFK"] <->
      In c (cargos air_cargo_p1) /\ In p (planes air_cargo_p1)
      /\ In ap (airports air_cargo_p1)
      /\ holds air_cargo_p1 (initial_state_TF air_cargo_p1) (At p ap)
      /\ holds air_cargo_p1 (initial_state_TF air_cargo_p1) (At c ap)
      /\ fails air_cargo_p1 (initial_state_TF air_cargo_p1) (In_ c p))
  /\ (forall c p ap,
        In (Unload c p ap)
           [Load "C2" "P2" "JFK"; Load "C1" "P1" "SFO";
            Fly "P2" "JFK" "SFO"; Fly "P1" "SFO" "JFK"] <->
        In c (cargos air_cargo_p1) /\ In p (planes air_cargo_p1)
        /\ In ap (airports air_cargo_p1)
        /\ holds air_cargo_p1 (initial_state_TF air_cargo_p1) (In_ c p)
        /\ holds air_cargo_p1 (initial_state_TF air_cargo_p1) (At p ap)
        /\ fails air_cargo_p1 (initial_state_TF air_cargo_p1) (At c ap))
  /\ (forall p fr to,
        In (Fly p fr to)
           [Load "C2" "P2" "JFK"; Load "C1" "P1" "SFO";
            Fly "P2" "JFK" "SFO"; Fly "P1" "SFO" "JFK"] <->
        In p (planes air_cargo_p1) /\ In fr (airports air_cargo_p1)
        /\ In to (airports air_cargo_p1) /\ fr <> to
        /\ holds air_cargo_p1 (initial_state_TF air_cargo_p1) (At p fr)).
Proof.
  apply (actions_by_schema ["C1"; "C2"] ["P1"; "P2"] ["JFK"; "SFO"]
           (mkFluentState
              [At "C1" "SFO"; At "C2" "JFK"; At "P1" "SFO"; At "P2" "JFK"]
              [At "C2" "SFO"; In_ "C2" "P1"; In_ "C2" "P2"; At "C1" "JFK";
               In_ "C1" "P1"; In_ "C1" "P2"; At "P1" "JFK"; At "P2" "SFO"])
           [At "C1" "JFK"; At "C2" "SFO"]
           (initial_state_TF air_cargo_p1)).
  reflexivity.
Defined.

(** Every grounded action adds one literal and deletes another one, which
    is among its positive preconditions. *)
Lemma get_actions_effects (self : AirCargoProblem) (a : Action) :
  In a (get_actions self) ->
  exists x y,
    effect_add a = [x] /\ effect_rem a = [y] /\ x <> y
    /\ In y (precond_pos a).
Proof.
  intros Ha; apply get_actions_schema in Ha.
  destruct Ha as [(c & p & ap & ->)|[(c & p & ap & ->)|(p & fr & to & N & ->)]];
    simpl; do 2 eexists; (split; [reflexivity|]); (split; [reflexivity|]);
    (split; [|tauto]); intros H; inversion H; congruence.
Qed.

(** X7.  A transition by an applicable grounded action moves exactly its two
    effect literals: the deleted one was true and is false afterwards, the
    added one is true afterwards when the state map has it, and every other
    literal keeps its truth value. *)
Theorem applicable_step_moves_two (self : AirCargoProblem) (s : list bool)
  (acts : list Action) (a : Action) :
  encoded_over (state_map self) s ->
  actions self s = Ok acts ->
  In a acts ->
  In a (get_actions self) ->
  exists s' x y,
    result self s a = Ok s'
    /\ effect_add a = [x] /\ effect_rem a = [y] /\ x <> y
    /\ holds self s y
    /\ fails self s' y
    /\ (In x (state_map self) -> holds self s' x)
    /\ (forall z, z <> x -> z <> y ->
                  (holds self s' z <-> holds self s z)
                  /\ (fails self s' z <-> fails self s z)).
Proof.
  intros Hs Hacts Hin Hg.
  pose proof (encoded_over_length _ _ Hs) as E.
  destruct (get_actions_effects self a Hg) as (x & y & Hadd & Hrem & N & Hy).
  destruct (actions_In self s acts a Hacts Hin) as (_ & _ & _ & Hp).
  destruct (result_decoded self s a E) as (s' & R & _ & _).
  assert (Hty : holds self s y) by (apply (holds_iff _ _ _ E), Hp, Hy).
  pose proof (holds_in_map _ _ _ Hty) as Hmy.
  exists s', x, y.
  split; [exact R|]; split; [exact Hadd|]; split; [exact Hrem|].
  split; [exact N|]; split; [exact Hty|]; split; [|split].
  - apply (result_fails _ _ _ _ _ R); rewrite Hadd, Hrem; simpl.
    intuition congruence.
  - intros Hm; apply (result_holds _ _ _ _ _ R); rewrite Hadd; simpl; auto.
  - intros z Nx Ny.
    rewrite (result_holds _ _ _ _ _ R), (result_fails _ _ _ _ _ R),
      (encoded_fails_iff _ _ _ Hs), Hadd, Hrem; simpl.
    pose proof (holds_in_map self s z); intuition congruence.
Qed.

Lemma applicable_step_moves_two_witness :
  exists s' x y,
    result air_cargo_p1 (initial_state_TF air_cargo_p1)
           (Load "C1" "P1" "SFO") = Ok s'
    /\ effect_add (Load "C1" "P1" "SFO") = [x]
    /\ effect_rem (Load "C1" "P1" "SFO") = [y] /\ x <> y
    /\ holds air_cargo_p1 (initial_state_TF air_cargo_p1) y
    /\ fails air_cargo_p1 s' y
    /\ (In x (state_map air_cargo_p1) -> holds air_cargo_p1 s' x)
    /\ (forall z, z <> x -> z <> y ->
                  (holds air_cargo_p1 s' z
                   <-> holds air_cargo_p1 (initial_state_TF air_cargo_p1) z)
                  /\ (fails air_cargo_p1 s' z
                      <-> fails air_cargo_p1
                            (initial_state_TF air_cargo_p1) z)).
Proof.
  eapply (applicable_step_moves_two air_cargo_p1
            (initial_state_TF air_cargo_p1)).
  - eexists; reflexivity.
  - vm_compute; reflexivity.
  - in_explicit_list.
  - in_explicit_list.
Defined.

(** X8.  From every encoded state in which [Unload(c, p, a)] is applicable,
    unloading and then loading again returns the state itself. *)
Theorem unload_load_back (self : AirCargoProblem) (s : list bool)
  (acts : list Action) (c p ap : string) :
  encoded_over (state_map self) s ->
  actions self s = Ok acts ->
  In (Unload c p ap) acts ->
  undone_by self s (Unload c p ap) (Load c p ap).
Proof.
  intros Hs Hacts Hin.
  destruct (actions_In self s acts _ Hacts Hin) as (_ & _ & Hn & Hp).
  apply (result_undo self s _ _ Hs); try reflexivity.
  - intros x [<-|[]]; apply Hp; simpl; auto.
  - intros x [<-|[]] Hx.
    destruct (encoded_partitions _ _ Hs) as [Hd _].
    apply (Hd (At c ap)); split; [exact Hx|].
    apply Hn; simpl; auto.
Qed.

Lemma unload_load_back_witness :
  undone_by air_cargo_p1
    [false; true; false; true; false; false;
     false; false; true; false; true; false]
    (Unload "C1" "P1" "JFK") (Load "C1" "P1" "JFK").
Proof.
  eapply (unload_load_back air_cargo_p1).
  - exists (mkFluentState
              [At "C2" "JFK"; At "P2" "JFK"; In_ "C1" "P1"; At "P1" "JFK"]
              []).
    reflexivity.
  - vm_compute; reflexivity.
  - in_explicit_list.
Defined.


(** ** Goal test and heuristic together *)

Lemma goal_test_value (self : AirCargoProblem) (s : list bool) :
  List.length s = List.length (state_map self) ->
  goal_test self s
  = Ok (issubset (goal self) (pos (split_by_flags s (state_map self)))).
Proof.
  intros E; unfold goal_test; rewrite (decode_state_Ok _ _ E); cbn [bind].
  rewrite goal_loop_issubset; reflexivity.
Qed.

Lemma h_ignore_preconditions_value (self : AirCargoProblem) (s : list bool) :
  List.length s = List.length (state_map self) ->
  h_ignore_preconditions self (mkNode s)
  = Ok (List.length
          (filter (fun g => memb g (neg (split_by_flags s (state_map self))))
                  (goal self))).
Proof.
  intros E; unfold h_ignore_preconditions; cbn [state].
  rewrite (decode_state_Ok _ _ E); cbn [bind].
  rewrite count_unmet_filter; reflexivity.
Qed.

Lemma filter_length_zero {A : Type} (f : A -> bool) (l : list A) :
  List.length (filter f l) = 0 <-> forall x, In x l -> f x = false.
Proof.
  induction l as [|x l IH]; simpl; [tauto|].
  destruct (f x) eqn:Fx; simpl.
  - split; [discriminate|].
    intros H; specialize (H x (or_introl eq_refl)); congruence.
  - rewrite IH; split; [intros H y [<-|Hy]; auto | auto].
Qed.

Lemma filter_length_bound {A : Type} (f : A -> bool) (l : list A) :
  List.length (filter f l) <= List.length l.
Proof.
  induction l as [|x l IH]; simpl; [lia|].
  destruct (f x); simpl; lia.
Qed.

(** In an encoded state with the goal met, no goal entry is unmet. *)
Lemma goal_met_unmet_zero (self : AirCargoProblem) (s : list bool) :
  encoded_over (state_map self) s ->
  goal_test self s = Ok true ->
  List.length
    (filter (fun g => memb g (neg (split_by_flags s (state_map self))))
            (goal self)) = 0.
Proof.
  intros Hs G.
  rewrite (goal_test_value _ _ (encoded_over_length _ _ Hs)) in G.
  inversion G as [G']; apply issubset_incl in G'.
  apply filter_length_zero; intros g Hg; apply memb_notIn.
  destruct (encoded_partitions _ _ Hs) as [Hd _].
  intros Hn; apply (Hd g); split; [apply G', Hg | exact Hn].
Qed.

(** X9.  On an encoded state the heuristic is at most the number of goal
    entries; it is 0 whenever [goal_test] is true; and when every goal
    literal is in the state map, it is 0 only if [goal_test] is true. *)
Theorem goal_test_and_heuristic (self : AirCargoProblem) (s : list bool) :
  encoded_over (state_map self) s ->
  exists b h,
    goal_test self s = Ok b
    /\ h_ignore_preconditions self (mkNode s) = Ok h
    /\ h <= List.length (goal self)
    /\ (b = true -> h = 0)
    /\ (incl (goal self) (state_map self) -> h = 0 -> b = true).
Proof.
  intros Hs; pose proof (encoded_over_length _ _ Hs) as E.
  do 2 eexists.
  split; [apply (goal_test_value _ _ E)|].
  split; [apply (h_ignore_preconditions_value _ _ E)|].
  split; [apply filter_length_bound|]; split.
  - intros G; apply goal_met_unmet_zero; [exact Hs|].
    rewrite (goal_test_value _ _ E), G; reflexivity.
  - intros Hg H0; apply issubset_incl; intros g Hin.
    rewrite filter_length_zero in H0; specialize (H0 g Hin).
    apply memb_notIn in H0.
    pose proof (split_by_flags_cover s _ g E) as Hc.
    specialize (Hg g Hin); tauto.
Qed.

Lemma goal_test_and_heuristic_witness :
  exists b h,
    goal_test air_cargo_p1 (initial_state_TF air_cargo_p1) = Ok b
    /\ h_ignore_preconditions air_cargo_p1
         (mkNode (initial_state_TF air_cargo_p1)) = Ok h
    /\ h <= List.length (goal air_cargo_p1)
    /\ (b = true -> h = 0)
    /\ (incl (goal air_cargo_p1) (state_map air_cargo_p1) ->
        h = 0 -> b = true).
Proof.
  apply (goal_test_and_heuristic air_cargo_p1
           (initial_state_TF air_cargo_p1)).
  eexists; reflexivity.
Defined.

Lemma filter_at_most_one {A : Type} (f : A -> bool) (l : list A) (x : A) :
  NoDup l -> (forall g, In g l -> f g = true -> g = x) ->
  List.length (filter f l) <= 1.
Proof.
  intros ND; induction ND as [|g l Hg ND IH]; intros H; simpl; [lia|].
  destruct (f g) eqn:Fg; simpl.
  - assert (Hz : List.length (filter f l) = 0).
    { apply filter_length_zero; intros y Hy.
      destruct (f y) eqn:Fy; [|reflexivity].
      exfalso; apply Hg.
      rewrite (H g (or_introl eq_refl) Fg), <- (H y (or_intror Hy) Fy).
      exact Hy. }
    lia.
  - apply IH; intros y Hy; apply H; right; exact Hy.
Qed.

(** One action with a single add-effect meets at most one goal entry. *)
Lemma unmet_step_bound (self : AirCargoProblem) (s s' : list bool)
  (a : Action) (x : Expr) :
  encoded_over (state_map self) s ->
  NoDup (goal self) ->
  effect_add a = [x] ->
  result self s a = Ok s' ->
  List.length
    (filter (fun g => memb g (neg (split_by_flags s (state_map self))))
            (goal self))
  <= List.length
       (filter (fun g => memb g (neg (split_by_flags s' (state_map self))))
               (goal self)) + 1.
Proof.
  intros Hs ND Hadd R.
  pose proof (encoded_over_length _ _ Hs) as E.
  destruct (result_decoded self s a E) as (s1 & R1 & Hs' & Hx).
  rewrite R in R1; inversion R1; subst s1; clear R1.
  pose proof (unmet_accounting (state_map self) _ _ (goal self)
                (encoded_partitions _ _ Hs) (encoded_partitions _ _ Hs'))
    as Hacc.
  assert (Hmt : made_true (goal self) (split_by_flags s (state_map self))
                  (split_by_flags s' (state_map self)) <= 1).
  { unfold made_true; apply (filter_at_most_one _ _ x ND).
    intros g _ Hg; apply andb_true_iff in Hg as [Hn Hp].
    apply memb_In in Hn, Hp.
    destruct (Hx g) as [Hp' _]; cbn zeta in Hp'.
    destruct (encoded_partitions _ _ Hs) as [Hd _]; specialize (Hd g).
    rewrite Hadd in Hp'; simpl in Hp'; intuition congruence. }
  lia.
Qed.

(** X10.  The heuristic never overestimates: when the goal list has no
    repeated literal, its value at an encoded state is at most the length of
    any plan of grounded actions whose execution from that state ends in a
    state where [goal_test] is true. *)
Theorem h_ignore_preconditions_admissible (self : AirCargoProblem)
  (plan : list Action) (s s' : list bool) (h : nat) :
  encoded_over (state_map self) s ->
  NoDup (goal self) ->
  incl plan (get_actions self) ->
  execute self s plan = Ok s' ->
  goal_test self s' = Ok true ->
  h_ignore_preconditions self (mkNode s) = Ok h ->
  h <= List.length plan.
Proof.
  intros Hs ND; revert s h Hs.
  induction plan as [|a plan IH]; intros s h Hs Hin X G Hh;
    rewrite (h_ignore_preconditions_value _ _ (encoded_over_length _ _ Hs))
      in Hh; inversion Hh; subst h; clear Hh; simpl in X.
  - inversion X; subst s'.
    rewrite (goal_met_unmet_zero self s Hs G); simpl; lia.
  - destruct (result self s a) as [s1|] eqn:R; [|discriminate]; simpl in X.
    pose proof (result_encoded _ _ _ _ R) as Hs1.
    destruct (get_actions_effects self a (Hin a (or_introl eq_refl)))
      as (x & _ & Hadd & _).
    pose proof (unmet_step_bound self s s1 a x Hs ND Hadd R) as Hstep.
    assert (Hrest : incl plan (get_actions self))
      by (intros b Hb; apply Hin; right; exact Hb).
    specialize (IH s1 _ Hs1 Hrest X G
                  (h_ignore_preconditions_value _ _
                     (encoded_over_length _ _ Hs1))).
    simpl; lia.
Qed.

Lemma h_ignore_preconditions_admissible_witness : 2 <= 6.
Proof.
  apply (h_ignore_preconditions_admissible air_cargo_p1 p1_plan
           (initial_state_TF air_cargo_p1)
           [false; false; false; false; true; false;
            false; true; false; false; true; true] 2).
  - eexists; reflexivity.
  - repeat constructor; simpl; intuition discriminate.
  - intros a Ha; unfold p1_plan in Ha; simpl in Ha.
    repeat (destruct Ha as [<-|Ha]; [in_explicit_list|]).
    contradiction.
  - reflexivity.
  - reflexivity.
  - reflexivity.
Defined.


(** ** The constructor *)

Lemma encode_state_app (fs : FluentState) (m1 m2 : list Expr) :
  encode_state fs (m1 ++ m2) = encode_state fs m1 ++ encode_state fs m2.
Proof. apply map_app. Qed.

Lemma split_by_flags_app (s1 s2 : list bool) (m1 m2 : list Expr) :
  List.length s1 = List.length m1 ->
  split_by_flags (s1 ++ s2) (m1 ++ m2)
  = mkFluentState
      (pos (split_by_flags s1 m1) ++ pos (split_by_flags s2 m2))
      (neg (split_by_flags s1 m1) ++ neg (split_by_flags s2 m2)).
Proof.
  revert m1; induction s1 as [|b s1 IH]; intros [|l m1] E; simpl in *;
    try discriminate.
  - destruct (split_by_flags s2 m2); reflexivity.
  - injection E as E; rewrite (IH m1 E); destruct b; reflexivity.
Qed.

Lemma split_by_flags_all_true (m : list Expr) :
  split_by_flags (repeat true (List.length m)) m = mkFluentState m [].
Proof. induction m as [|l m IH]; simpl; [|rewrite IH]; reflexivity. Qed.

Lemma split_by_flags_all_false (m : list Expr) :
  split_by_flags (repeat false (List.length m)) m = mkFluentState [] m.
Proof. induction m as [|l m IH]; simpl; [|rewrite IH]; reflexivity. Qed.

Lemma map_all {A B : Type} (f : A -> B) (l : list A) (b : B) :
  (forall x, In x l -> f x = b) -> map f l = repeat b (List.length l).
Proof.
  induction l as [|x l IH]; intros H; simpl; [reflexivity|].
  rewrite (H x (or_introl eq_refl)), IH; [reflexivity|].
  intros y Hy; apply H; right; exact Hy.
Qed.

(** X11.  The initial state the constructor encodes decodes again: a
    literal is true in it iff it is listed true, and false iff it is listed
    false and not also listed true.  When no literal is listed both ways,
    the vector is one true flag per true literal followed by one false flag
    per false literal, and it decodes to the very lists that were given. *)
Theorem initial_state_round_trip (cargos planes airports : list string)
  (initial : FluentState) (goal_ : list Expr) :
  let self := AirCargoProblem_ cargos planes airports initial goal_ in
  exists fs,
    decode_state (initial_state_TF self) (state_map self) = Ok fs
    /\ (forall x, In x (pos fs) <-> In x (pos initial))
    /\ (forall x, In x (neg fs) <->
                  In x (neg initial) /\ ~ In x (pos initial))
    /\ ((forall x, In x (neg initial) -> ~ In x (pos initial)) ->
        initial_state_TF self
        = repeat true (List.length (pos initial))
          ++ repeat false (List.length (neg initial))
        /\ fs = initial).
Proof.
  intros self.
  assert (E : List.length (initial_state_TF self)
              = List.length (state_map self))
    by apply encode_state_length.
  exists (split_by_flags (initial_state_TF self) (state_map self)).
  split; [apply decode_state_Ok, E|].
  change (initial_state_TF self)
    with (encode_state initial (pos initial ++ neg initial)).
  change (state_map self) with (pos initial ++ neg initial).
  split; [|split].
  - intros x; rewrite In_split_encode_pos, in_app_iff; tauto.
  - intros x; rewrite In_split_encode_neg, in_app_iff; tauto.
  - intros Hdisj.
    assert (Hv : encode_state initial (pos initial ++ neg initial)
                 = repeat true (List.length (pos initial))
                   ++ repeat false (List.length (neg initial))).
    { rewrite encode_state_app; unfold encode_state; f_equal.
      - apply map_all; intros x Hx; apply memb_In, Hx.
      - apply map_all; intros x Hx; apply memb_notIn, Hdisj, Hx. }
    split; [exact Hv|].
    rewrite Hv, split_by_flags_app by apply repeat_length.
    rewrite split_by_flags_all_true, split_by_flags_all_false; simpl.
    rewrite app_nil_r; destruct initial; reflexivity.
Qed.

Lemma initial_state_round_trip_witness :
  initial_state_TF air_cargo_p1 = repeat true 4 ++ repeat false 8
  /\ decode_state (initial_state_TF air_cargo_p1) (state_map air_cargo_p1)
     = Ok (mkFluentState
             [At "C1" "SFO"; At "C2" "JFK"; At "P1" "SFO"; At "P2" "JFK"]
             [At "C2" "SFO"; In_ "C2" "P1"; In_ "C2" "P2"; At "C1" "JFK";
              In_ "C1" "P1"; In_ "C1" "P2"; At "P1" "JFK"; At "P2" "SFO"]).
Proof.
  destruct (initial_state_round_trip ["C1"; "C2"] ["P1"; "P2"]
              ["JFK"; "SFO"]
              (mkFluentState
                 [At "C1" "SFO"; At "C2" "JFK"; At "P1" "SFO"; At "P2" "JFK"]
                 [At "C2" "SFO"; In_ "C2" "P1"; In_ "C2" "P2"; At "C1" "JFK";
                  In_ "C1" "P1"; In_ "C1" "P2"; At "P1" "JFK";
                  At "P2" "SFO"])
              [At "C1" "JFK"; At "C2" "SFO"])
    as (fs & D & _ & _ & H).
  destruct H as [Hv Hfs].
  - intros x Hn Hp; simpl in Hn, Hp.
    repeat (destruct Hn as [<-|Hn];
            [repeat (destruct Hp as [Hp|Hp]; [discriminate Hp|]); exact Hp|]).
    exact Hn.
  - split; [exact Hv|]; rewrite <- Hfs; exact D.
Defined.


(** ** Planes are in one place *)

(** One applicable transition keeps every plane in one place. *)
Lemma planes_in_one_place_step (cargos planes airports : list string)
  (initial : FluentState) (goal_ : list Expr) (s s' : list bool)
  (acts : list Action) (a : Action) :
  let self := AirCargoProblem_ cargos planes airports initial goal_ in
  (forall c, In c cargos -> ~ In c planes) ->
  planes_in_one_place self s ->
  actions self s = Ok acts ->
  In a acts ->
  result self s a = Ok s' ->
  planes_in_one_place self s'.
Proof.
  intros self Hcp Inv Hacts Hin R q a1 a2 Hq H1 H2.
  destruct (actions_In self s acts a Hacts Hin) as (E & Hl & _ & Hp).
  change (actions_list self) with (get_actions self) in Hl.
  apply (result_holds self s s' a _ R) in H1, H2.
  destruct H1 as [_ H1], H2 as [_ H2].
  apply In_get_actions in Hl.
  destruct Hl as [(c & p & ap & Hc & _ & _ & ->)
                 |[(c & p & ap & Hc & _ & _ & ->)
                  |(p & fr & to & Hpl & _ & _ & N & ->)]];
    cbn [Load Unload Fly Action_ effect_add effect_rem precond_pos fst snd]
      in H1, H2, Hp.
  - destruct H1 as [[H1 _]|[H1|[]]]; [|discriminate H1].
    destruct H2 as [[H2 _]|[H2|[]]]; [|discriminate H2].
    exact (Inv q a1 a2 Hq H1 H2).
  - assert (Hnew : forall a', At c ap <> At q a').
    { intros a' H; inversion H; subst; exact (Hcp q Hc Hq). }
    destruct H1 as [[H1 _]|[H1|[]]]; [|exact (False_ind _ (Hnew _ H1))].
    destruct H2 as [[H2 _]|[H2|[]]]; [|exact (False_ind _ (Hnew _ H2))].
    exact (Inv q a1 a2 Hq H1 H2).
  - assert (Hfr : holds self s (At p fr)).
    { apply (holds_iff _ _ _ E), Hp; simpl; auto. }
    destruct H1 as [[H1 N1]|[H1|[]]]; destruct H2 as [[H2 N2]|[H2|[]]].
    + exact (Inv q a1 a2 Hq H1 H2).
    + inversion H2; subst q a2.
      exfalso; apply N1; rewrite (Inv p a1 fr Hq H1 Hfr); simpl; auto.
    + inversion H1; subst q a1.
      exfalso; apply N2; rewrite (Inv p a2 fr Hq H2 Hfr); simpl; auto.
    + inversion H1; inversion H2; congruence.
Qed.

(** X12.  When no cargo has the name of a plane and no plane is at two
    airports in the initial state, no plane is at two airports in any
    reachable state. *)
Theorem planes_stay_in_one_place (cargos planes airports : list string)
  (initial : FluentState) (goal_ : list Expr) (s : list bool) :
  let self := AirCargoProblem_ cargos planes airports initial goal_ in
  (forall c, In c cargos -> ~ In c planes) ->
  planes_in_one_place self (initial_state_TF self) ->
  reachable self s ->
  planes_in_one_place self s.
Proof.
  intros self Hcp H0 H.
  induction H as [|s s' acts a _ IH Hacts Hin R]; [exact H0|].
  exact (planes_in_one_place_step cargos planes airports initial goal_
           s s' acts a Hcp IH Hacts Hin R).
Qed.

(** The four true literals of the sample instance put each plane at one
    airport. *)
Lemma p1_planes_in_one_place :
  planes_in_one_place air_cargo_p1 (initial_state_TF air_cargo_p1).
Proof.
  intros p a1 a2 _ (fs1 & D1 & H1) (fs2 & D2 & H2).
  vm_compute in D1, D2; inversion D1; inversion D2; subst fs1 fs2.
  simpl in H1, H2.
  repeat match goal with
         | H : _ \/ _ |- _ => destruct H
         | H : False |- _ => contradiction
         | H : _ = At _ _ |- _ => inversion H; clear H
         end; congruence.
Qed.

Lemma p1_cargos_not_planes (c : string) :
  In c ["C1"; "C2"] -> ~ In c ["P1"; "P2"].
Proof. simpl; intuition congruence. Qed.

Lemma planes_stay_in_one_place_witness :
  planes_in_one_place air_cargo_p1
    [false; true; false; true; false; false;
     false; false; true; false; true; false].
Proof.
  apply (planes_stay_in_one_place ["C1"; "C2"] ["P1"; "P2"] ["JFK"; "SFO"]
           (mkFluentState
              [At "C1" "SFO"; At "C2" "JFK"; At "P1" "SFO"; At "P2" "JFK"]
              [At "C2" "SFO"; In_ "C2" "P1"; In_ "C2" "P2"; At "C1" "JFK";
               In_ "C1" "P1"; In_ "C1" "P2"; At "P1" "JFK"; At "P2" "SFO"])
           [At "C1" "JFK"; At "C2" "SFO"]).
  - exact p1_cargos_not_planes.
  - exact p1_planes_in_one_place.
  - reach_by [false; true; true; true; false; false;
              false; false; true; false; false; false]
             (Fly "P1" "SFO" "JFK").
    reach_by (initial_state_TF air_cargo_p1) (Load "C1" "P1" "SFO").
    apply reach_initial.
Defined.

(** X13.  Under the same two conditions, in every reachable state in which
    [Fly(p, from, to)] is applicable, flying there and back returns the
    state itself. *)
Theorem fly_back_on_reachable (cargos planes airports : list string)
  (initial : FluentState) (goal_ : list Expr) (s : list bool)
  (acts : list Action) (p fr to : string) :
  let self := AirCargoProblem_ cargos planes airports initial goal_ in
  (forall c, In c cargos -> ~ In c planes) ->
  planes_in_one_place self (initial_state_TF self) ->
  reachable self s ->
  actions self s = Ok acts ->
  In (Fly p fr to) acts ->
  undone_by self s (Fly p fr to) (Fly p to fr).
Proof.
  intros self Hcp H0 Hr Hacts Hin.
  assert (Inv : planes_in_one_place self s).
  { clear Hacts Hin.
    induction Hr as [|s s' acts' a _ IH Hacts Hin R]; [exact H0|].
    exact (planes_in_one_place_step cargos planes airports initial goal_
             s s' acts' a Hcp IH Hacts Hin R). }
  pose proof (reachable_encoded self s
                (constructed_initial_encoded cargos planes airports
                   initial goal_) Hr) as Hs.
  destruct (actions_In self s acts _ Hacts Hin) as (E & Hl & _ & Hp).
  change (actions_list self) with (get_actions self) in Hl.
  apply In_get_actions in Hl.
  destruct Hl as [(c & p' & ap & _ & _ & _ & Heq)
                 |[(c & p' & ap & _ & _ & _ & Heq)
                  |(p' & fr' & to' & Hpl & _ & _ & N & Heq)]];
    try discriminate Heq.
  apply Fly_inj in Heq; destruct Heq as (<- & <- & <-).
  assert (Hfr : holds self s (At p fr)).
  { apply (holds_iff _ _ _ E), Hp; simpl; auto. }
  apply (result_undo self s _ _ Hs); try reflexivity.
  - intros x [<-|[]]; apply (holds_iff _ _ _ E), Hfr.
  - intros x [<-|[]] Hx; apply N; symmetry.
    apply (Inv p to fr Hpl); [apply (holds_iff _ _ _ E), Hx | exact Hfr].
Qed.

Lemma fly_back_on_reachable_witness :
  undone_by air_cargo_p1
    [false; true; true; true; false; false;
     false; false; true; false; false; false]
    (Fly "P1" "SFO" "JFK") (Fly "P1" "JFK" "SFO").
Proof.
  eapply (fly_back_on_reachable ["C1"; "C2"] ["P1"; "P2"] ["JFK"; "SFO"]
            (mkFluentState
               [At "C1" "SFO"; At "C2" "JFK"; At "P1" "SFO"; At "P2" "JFK"]
               [At "C2" "SFO"; In_ "C2" "P1"; In_ "C2" "P2"; At "C1" "JFK";
                In_ "C1" "P1"; In_ "C1" "P2"; At "P1" "JFK"; At "P2" "SFO"])
            [At "C1" "JFK"; At "C2" "SFO"]).
  - exact p1_cargos_not_planes.
  - exact p1_planes_in_one_place.
  - reach_by (initial_state_TF air_cargo_p1) (Load "C1" "P1" "SFO").
    apply reach_initial.
  - vm_compute; reflexivity.
  - in_explicit_list.
Defined.



(** ** The generated instances *)

(** A loop whose body appends to each of the three lists appends, in all,
    the concatenation of what the iterations append. *)
Lemma fold_left_appends {A : Type} (step : Lists -> A -> Lists)
  (fp fn fg : A -> list Expr) :
  (forall st x,
      step st x
      = mkLists (pos_ st ++ fp x) (neg_ st ++ fn x) (goal_of st ++ fg x)) ->
  forall l st,
    fold_left step l st
    = mkLists (pos_ st ++ flat_map fp l) (neg_ st ++ flat_map fn l)
              (goal_of st ++ flat_map fg l).
Proof.
  intros Hstep l; induction l as [|x l IH]; intros st; simpl.
  - rewrite !app_nil_r; destruct st; reflexivity.
  - rewrite IH, Hstep; simpl; rewrite <- !app_assoc; reflexivity.
Qed.

Lemma cargo_step_appends (n ia : nat) (a : string) (st : Lists)
  (icc : nat * string) :
  cargo_step n ia a st icc
  = mkLists (pos_ st ++ cargo_pos ia a icc) (neg_ st ++ cargo_neg ia a icc)
            (goal_of st ++ cargo_goal n ia a icc).
Proof.
  unfold cargo_step, cargo_pos, cargo_neg, cargo_goal.
  destruct (Nat.eqb ia (fst icc)), (Nat.eqb (fst icc) (n - ia - 1)); simpl;
    rewrite ?app_nil_r; destruct st; reflexivity.
Qed.

Lemma plane_step_appends (ia : nat) (a : string) (st : Lists)
  (ipp : nat * string) :
  plane_step ia a st ipp
  = mkLists (pos_ st ++ plane_pos ia a ipp) (neg_ st ++ plane_neg ia a ipp)
            (goal_of st ++ []).
Proof.
  unfold plane_step, plane_pos, plane_neg.
  destruct (Nat.eqb (fst ipp) ia); simpl; rewrite ?app_nil_r;
    destruct st; reflexivity.
Qed.

Lemma airport_step_appends (n : nat) (cargoes planes : list string)
  (st : Lists) (iaa : nat * string) :
  airport_step n cargoes planes st iaa
  = mkLists (pos_ st ++ airport_pos cargoes planes iaa)
            (neg_ st ++ airport_neg cargoes planes iaa)
            (goal_of st ++ airport_goal n cargoes iaa).
Proof.
  unfold airport_step, airport_pos, airport_neg, airport_goal.
  rewrite (fold_left_appends _ _ _ _ (cargo_step_appends n _ _)).
  rewrite (fold_left_appends _ _ _ (fun _ => [])
             (plane_step_appends _ _)); simpl.
  rewrite <- !app_assoc.
  replace (flat_map (fun _ : nat * string => []) (enumerate planes))
    with (@nil Expr) by (induction (enumerate planes); simpl; auto).
  rewrite app_nil_r; reflexivity.
Qed.

Lemma in_loop_appends (cargoes planes : list string) (neg : list Expr) :
  in_loop cargoes planes neg = neg ++ in_literals cargoes planes.
Proof.
  unfold in_loop, in_literals.
  revert neg; induction cargoes as [|c cargoes IH]; intros neg; simpl.
  - rewrite app_nil_r; reflexivity.
  - rewrite IH, app_assoc; f_equal.
    clear IH; revert neg; induction planes as [|p planes IHp]; intros neg;
      simpl; [rewrite app_nil_r; reflexivity|].
    rewrite IHp, <- app_assoc; reflexivity.
Qed.

(** The three lists of [formulate_problem] in closed form. *)
Lemma formulate_lists_closed (airports : list string) (c p : nat) :
  formulate_lists airports c p
  = mkLists
      (flat_map (airport_pos (cargo_names c) (plane_names p))
                (enumerate airports))
      (in_literals (cargo_names c) (plane_names p)
       ++ flat_map (airport_neg (cargo_names c) (plane_names p))
                   (enumerate airports))
      (flat_map (airport_goal (List.length airports) (cargo_names c))
                (enumerate airports)).
Proof.
  unfold formulate_lists.
  rewrite (fold_left_appends _ _ _ _ (airport_step_appends _ _ _)).
  rewrite in_loop_appends; reflexivity.
Qed.

(** *** Enumeration and names *)

Lemma In_combine_seq {A : Type} (l : list A) (k i : nat) (x : A) :
  In (i, x) (combine (seq k (List.length l)) l) <->
  k <= i /\ nth_error l (i - k) = Some x.
Proof.
  revert k; induction l as [|y l IH]; intros k; simpl.
  - split; [contradiction|].
    intros [_ H]; destruct (i - k); discriminate H.
  - rewrite IH; split.
    + intros [H|[Hk H]].
      * inversion H; subst; rewrite Nat.sub_diag; simpl; auto.
      * split; [lia|].
        replace (i - k) with (S (i - S k)) by lia; exact H.
    + intros [Hk H].
      destruct (i - k) as [|j] eqn:Ej; simpl in H.
      * left; inversion H; f_equal; lia.
      * right; split; [lia|].
        replace (i - S k) with j by lia; exact H.
Qed.

Lemma In_enumerate {A : Type} (l : list A) (i : nat) (x : A) :
  In (i, x) (enumerate l) <-> nth_error l i = Some x.
Proof.
  unfold enumerate; rewrite In_combine_seq, Nat.sub_0_r.
  split; [tauto | split; [lia | assumption]].
Qed.

Lemma enumerate_length {A : Type} (l : list A) :
  List.length (enumerate l) = List.length l.
Proof.
  unfold enumerate; rewrite length_combine, length_seq; apply Nat.min_id.
Qed.

(** Among the pairs of an enumeration, equal indices give equal pairs. *)
Lemma enumerate_same_index {A : Type} (l : list A) (i : nat) (x y : A) :
  In (i, x) (enumerate l) -> In (i, y) (enumerate l) -> x = y.
Proof. rewrite !In_enumerate; congruence. Qed.

(** In the enumeration of a list without repetition, equal elements give
    equal indices. *)
Lemma enumerate_same_value {A : Type} (l : list A) (i j : nat) (x : A) :
  NoDup l -> In (i, x) (enumerate l) -> In (j, x) (enumerate l) -> i = j.
Proof.
  rewrite !In_enumerate; intros ND Hi Hj.
  apply (proj1 (NoDup_nth_error l) ND); [|congruence].
  apply nth_error_Some; congruence.
Qed.

Lemma enumerate_NoDup {A : Type} (l : list A) : NoDup (enumerate l).
Proof.
  apply (NoDup_map_inv (A := nat * A) (B := nat) fst).
  unfold enumerate.
  assert (H : forall (l : list A) k,
             map fst (combine (seq k (List.length l)) l)
             = seq k (List.length l)).
  { clear l; induction l as [|y l IH]; intros k; simpl; [reflexivity|].
    rewrite IH; reflexivity. }
  rewrite H; apply seq_NoDup.
Qed.

(** Python's [str] is injective on the natural numbers. *)
Lemma str_inj (i j : nat) : str i = str j -> i = j.
Proof.
  unfold str; intros H.
  assert (Hn : forall n, Nat.to_uint n <> Decimal.Nil).
  { intros n Hn.
    pose proof (DecimalNat.Unsigned.of_to n) as Hof.
    rewrite Hn in Hof; simpl in Hof; subst n; discriminate Hn. }
  apply DecimalNat.Unsigned.to_uint_inj.
  pose proof (NilZero.usu _ (Hn i)) as Hi.
  pose proof (NilZero.usu _ (Hn j)) as Hj.
  rewrite H in Hi; congruence.
Qed.

Lemma nth_error_names (name : nat -> string) (n i : nat) (x : string) :
  nth_error (map name (seq 0 n)) i = Some x <-> i < n /\ x = name i.
Proof.
  rewrite nth_error_map; split.
  - destruct (nth_error (seq 0 n) i) as [k|] eqn:E; simpl; [|discriminate].
    intros H; inversion H; subst x.
    assert (Hi : i < n).
    { rewrite <- (length_seq n 0); apply nth_error_Some; congruence. }
    rewrite nth_error_seq in E.
    destruct (Nat.ltb i n) eqn:L; [|apply Nat.ltb_ge in L; lia].
    inversion E; subst k; auto.
  - intros [Hi ->]; rewrite nth_error_seq.
    apply Nat.ltb_lt in Hi; rewrite Hi; reflexivity.
Qed.

Lemma In_enumerate_cargo_names (c i : nat) (x : string) :
  In (i, x) (enumerate (cargo_names c)) <-> i < c /\ x = cargo_name i.
Proof. rewrite In_enumerate; apply nth_error_names. Qed.

Lemma In_enumerate_plane_names (p i : nat) (x : string) :
  In (i, x) (enumerate (plane_names p)) <-> i < p /\ x = plane_name i.
Proof. rewrite In_enumerate; apply nth_error_names. Qed.

Lemma In_cargo_names (c : nat) (x : string) :
  In x (cargo_names c) <-> exists i, i < c /\ x = cargo_name i.
Proof.
  split.
  - intros H; apply In_nth_error in H; destruct H as (i & H).
    exists i; apply nth_error_names, H.
  - intros (i & H); apply (nth_error_In _ i), nth_error_names, H.
Qed.

Lemma In_plane_names (p : nat) (x : string) :
  In x (plane_names p) <-> exists i, i < p /\ x = plane_name i.
Proof.
  split.
  - intros H; apply In_nth_error in H; destruct H as (i & H).
    exists i; apply nth_error_names, H.
  - intros (i & H); apply (nth_error_In _ i), nth_error_names, H.
Qed.

Lemma cargo_name_inj (i j : nat) : cargo_name i = cargo_name j -> i = j.
Proof.
  unfold cargo_name; simpl; intros H; inversion H as [H'].
  apply str_inj in H'; lia.
Qed.

Lemma plane_name_inj (i j : nat) : plane_name i = plane_name j -> i = j.
Proof.
  unfold plane_name; simpl; intros H; inversion H as [H'].
  apply str_inj in H'; lia.
Qed.

Lemma cargo_name_not_plane (i j : nat) : cargo_name i <> plane_name j.
Proof. unfold cargo_name, plane_name; simpl; intros H; discriminate H. Qed.

(** *** Membership in the three lists *)

Lemma In_in_literals (c p : nat) (x : Expr) :
  In x (in_literals (cargo_names c) (plane_names p)) <->
  exists i j, i < c /\ j < p /\ x = In_ (cargo_name i) (plane_name j).
Proof.
  unfold in_literals; rewrite in_flat_map; split.
  - intros (cn & Hc & H); apply in_map_iff in H.
    destruct H as (pn & <- & Hp).
    apply In_cargo_names in Hc; apply In_plane_names in Hp.
    destruct Hc as (i & Hi & ->), Hp as (j & Hj & ->); eauto.
  - intros (i & j & Hi & Hj & ->).
    exists (cargo_name i); split; [apply In_cargo_names; eauto|].
    apply in_map, In_plane_names; eauto.
Qed.

Lemma In_airport_pos (c p ia : nat) (a : string) (x : Expr) :
  In x (airport_pos (cargo_names c) (plane_names p) (ia, a)) <->
  (ia < c /\ x = At (cargo_name ia) a)
  \/ (ia < p /\ x = At (plane_name ia) a).
Proof.
  unfold airport_pos; rewrite in_app_iff, !in_flat_map; cbn [fst snd].
  split.
  - intros [((i & n) & Hin & H)|((i & n) & Hin & H)];
      [apply In_enumerate_cargo_names in Hin
      |apply In_enumerate_plane_names in Hin];
      destruct Hin as [Hi ->];
      unfold cargo_pos, plane_pos in H; cbn [fst snd] in H.
    + destruct (Nat.eqb ia i) eqn:E; [|contradiction].
      apply Nat.eqb_eq in E; subst i; destruct H as [<-|[]]; auto.
    + destruct (Nat.eqb i ia) eqn:E; [|contradiction].
      apply Nat.eqb_eq in E; subst i; destruct H as [<-|[]]; auto.
  - intros [[Hi ->]|[Hi ->]]; [left | right].
    + exists (ia, cargo_name ia); split;
        [apply In_enumerate_cargo_names; auto|].
      unfold cargo_pos; cbn [fst snd]; rewrite Nat.eqb_refl; simpl; auto.
    + exists (ia, plane_name ia); split;
        [apply In_enumerate_plane_names; auto|].
      unfold plane_pos; cbn [fst snd]; rewrite Nat.eqb_refl; simpl; auto.
Qed.

Lemma In_airport_neg (c p ia : nat) (a : string) (x : Expr) :
  In x (airport_neg (cargo_names c) (plane_names p) (ia, a)) <->
  exists k, k <> ia
            /\ ((k < c /\ x = At (cargo_name k) a)
                \/ (k < p /\ x = At (plane_name k) a)).
Proof.
  unfold airport_neg; rewrite in_app_iff, !in_flat_map; cbn [fst snd].
  split.
  - intros [((i & n) & Hin & H)|((i & n) & Hin & H)];
      [apply In_enumerate_cargo_names in Hin
      |apply In_enumerate_plane_names in Hin];
      destruct Hin as [Hi ->];
      unfold cargo_neg, plane_neg in H; cbn [fst snd] in H.
    + destruct (Nat.eqb ia i) eqn:E; [contradiction|].
      apply Nat.eqb_neq in E; destruct H as [<-|[]]; exists i; auto.
    + destruct (Nat.eqb i ia) eqn:E; [contradiction|].
      apply Nat.eqb_neq in E; destruct H as [<-|[]]; exists i; auto.
  - intros (k & N & [[Hk ->]|[Hk ->]]); [left | right].
    + exists (k, cargo_name k); split;
        [apply In_enumerate_cargo_names; auto|].
      unfold cargo_neg; cbn [fst snd].
      destruct (Nat.eqb ia k) eqn:E; [apply Nat.eqb_eq in E; lia|].
      simpl; auto.
    + exists (k, plane_name k); split;
        [apply In_enumerate_plane_names; auto|].
      unfold plane_neg; cbn [fst snd].
      destruct (Nat.eqb k ia) eqn:E; [apply Nat.eqb_eq in E; lia|].
      simpl; auto.
Qed.

Lemma In_airport_goal (n c ia : nat) (a : string) (x : Expr) :
  In x (airport_goal n (cargo_names c) (ia, a)) <->
  n - ia - 1 < c /\ x = At (cargo_name (n - ia - 1)) a.
Proof.
  unfold airport_goal; rewrite in_flat_map; cbn [fst snd]; split.
  - intros ((i & cn) & Hin & H).
    apply In_enumerate_cargo_names in Hin; destruct Hin as [Hi ->].
    unfold cargo_goal in H; cbn [fst snd] in H.
    destruct (Nat.eqb i (n - ia - 1)) eqn:E; [|contradiction].
    apply Nat.eqb_eq in E; subst i; destruct H as [<-|[]]; auto.
  - intros [Hi ->].
    exists (n - ia - 1, cargo_name (n - ia - 1)); split;
      [apply In_enumerate_cargo_names; auto|].
    unfold cargo_goal; cbn [fst snd]; rewrite Nat.eqb_refl; simpl; auto.
Qed.

Lemma In_formulate_pos (airports : list string) (c p : nat) (x : Expr) :
  In x (pos_ (formulate_lists airports c p)) <->
  exists i a,
    nth_error airports i = Some a
    /\ ((i < c /\ x = At (cargo_name i) a)
        \/ (i < p /\ x = At (plane_name i) a)).
Proof.
  rewrite formulate_lists_closed; cbn [pos_]; rewrite in_flat_map; split.
  - intros ((i & a) & Hin & H).
    apply In_enumerate in Hin; apply In_airport_pos in H; eauto.
  - intros (i & a & Hin & H); exists (i, a); split.
    + apply In_enumerate, Hin.
    + apply In_airport_pos, H.
Qed.

Lemma In_formulate_neg (airports : list string) (c p : nat) (x : Expr) :
  In x (neg_ (formulate_lists airports c p)) <->
  (exists i j, i < c /\ j < p /\ x = In_ (cargo_name i) (plane_name j))
  \/ (exists i a k,
         nth_error airports i = Some a /\ k <> i
         /\ ((k < c /\ x = At (cargo_name k) a)
             \/ (k < p /\ x = At (plane_name k) a))).
Proof.
  rewrite formulate_lists_closed; cbn [neg_].
  rewrite in_app_iff, In_in_literals, in_flat_map; split.
  - intros [H|((i & a) & Hin & H)]; [left; exact H | right].
    apply In_enumerate in Hin; apply In_airport_neg in H.
    destruct H as (k & N & H); eauto 6.
  - intros [H|(i & a & k & Hin & N & H)]; [left; exact H | right].
    exists (i, a); split; [apply In_enumerate, Hin|].
    apply In_airport_neg; eauto.
Qed.

Lemma In_formulate_goal (airports : list string) (c p : nat) (x : Expr) :
  In x (goal_of (formulate_lists airports c p)) <->
  exists i a,
    nth_error airports i = Some a
    /\ List.length airports - i - 1 < c
    /\ x = At (cargo_name (List.length airports - i - 1)) a.
Proof.
  rewrite formulate_lists_closed; cbn [goal_of]; rewrite in_flat_map; split.
  - intros ((i & a) & Hin & H).
    apply In_enumerate in Hin; apply In_airport_goal in H.
    destruct H; eauto.
  - intros (i & a & Hin & H); exists (i, a); split.
    + apply In_enumerate, Hin.
    + apply In_airport_goal, H.
Qed.

(** Every literal about a cargo or a plane and an airport of the problem is
    in one of the two lists. *)
Lemma In_formulate_state_map (airports : list string) (c p : nat)
  (x : Expr) :
  In x (state_map (formulate_problem airports c p)) <->
  (exists i j, i < c /\ j < p /\ x = In_ (cargo_name i) (plane_name j))
  \/ (exists a k,
         In a airports
         /\ ((k < c /\ x = At (cargo_name k) a)
             \/ (k < p /\ x = At (plane_name k) a))).
Proof.
  change (state_map (formulate_problem airports c p))
    with (pos_ (formulate_lists airports c p)
          ++ neg_ (formulate_lists airports c p)).
  rewrite in_app_iff, In_formulate_pos, In_formulate_neg; split.
  - intros [(i & a & Hin & H)|[H|(i & a & k & Hin & _ & H)]].
    + right; exists a, i; split; [exact (nth_error_In _ _ Hin) | exact H].
    + left; exact H.
    + right; exists a, k; split; [exact (nth_error_In _ _ Hin) | exact H].
  - intros [H|(a & k & Hin & H)]; [right; left; exact H|].
    apply In_nth_error in Hin; destruct Hin as (i & Hin).
    destruct (Nat.eq_dec k i) as [->|N].
    + left; eauto.
    + right; right; eauto 6.
Qed.

(** What is true in the initial state of a generated problem. *)
Lemma formulate_problem_placement_aux (airports : list string) (c p : nat)
  (x : Expr) :
  let self := formulate_problem airports c p in
  holds self (initial_state_TF self) x <->
  exists i a,
    nth_error airports i = Some a
    /\ ((i < c /\ x = At (cargo_name i) a)
        \/ (i < p /\ x = At (plane_name i) a)).
Proof.
  intros self.
  rewrite <- In_formulate_pos.
  assert (E : List.length (initial_state_TF self)
              = List.length (state_map self))
    by apply encode_state_length.
  rewrite (holds_iff _ _ _ E).
  change (initial_state_TF self)
    with (encode_state
            (mkFluentState (pos_ (formulate_lists airports c p))
                           (neg_ (formulate_lists airports c p)))
            (state_map self)).
  rewrite In_split_encode_pos; cbn [pos].
  change (state_map self)
    with (pos_ (formulate_lists airports c p)
          ++ neg_ (formulate_lists airports c p)).
  rewrite in_app_iff; tauto.
Qed.

(** X14.  How [formulate_problem] places the objects: in the initial state
    exactly cargo [i] and plane [i] are at airport [i] (a cargo or plane
    whose index has no airport is nowhere), and the goal asks exactly for
    cargo [n-1-i] at airport [i], for each airport index [i] of the [n]
    airports that has such a cargo. *)
Theorem formulate_problem_placement (airports : list string) (c p : nat) :
  let self := formulate_problem airports c p in
  (forall x,
      holds self (initial_state_TF self) x <->
      exists i a,
        nth_error airports i = Some a
        /\ ((i < c /\ x = At (cargo_name i) a)
            \/ (i < p /\ x = At (plane_name i) a)))
  /\ (forall x,
        In x (goal self) <->
        exists i a,
          nth_error airports i = Some a
          /\ List.length airports - i - 1 < c
          /\ x = At (cargo_name (List.length airports - i - 1)) a).
Proof.
  intros self; split; intros x.
  - apply formulate_problem_placement_aux.
  - apply In_formulate_goal.
Qed.

(** X15.  The state map of a generated problem has every literal the
    grounded actions and the goal mention: the preconditions and effects of
    every action of [actions_list] and the goal literals are all in
    [state_map]. *)
Theorem formulate_problem_vocabulary (airports : list string) (c p : nat) :
  let self := formulate_problem airports c p in
  (forall a, In a (actions_list self) ->
             incl (precond_pos a) (state_map self)
             /\ incl (precond_neg a) (state_map self)
             /\ incl (effect_add a) (state_map self)
             /\ incl (effect_rem a) (state_map self))
  /\ incl (goal self) (state_map self).
Proof.
  intros self; split.
  - intros a Ha.
    change (actions_list self) with (get_actions self) in Ha.
    apply In_get_actions in Ha.
    assert (HIn : forall cn pn, In cn (cargo_names c) ->
                                In pn (plane_names p) ->
                                In (In_ cn pn) (state_map self)).
    { intros cn pn Hc Hp; apply In_formulate_state_map; left.
      apply In_cargo_names in Hc; apply In_plane_names in Hp.
      destruct Hc as (i & Hi & ->), Hp as (j & Hj & ->); eauto. }
    assert (HAc : forall cn a', In cn (cargo_names c) -> In a' airports ->
                                In (At cn a') (state_map self)).
    { intros cn a' Hc Ha'; apply In_formulate_state_map; right.
      apply In_cargo_names in Hc; destruct Hc as (i & Hi & ->); eauto 6. }
    assert (HAp : forall pn a', In pn (plane_names p) -> In a' airports ->
                                In (At pn a') (state_map self)).
    { intros pn a' Hp Ha'; apply In_formulate_state_map; right.
      apply In_plane_names in Hp; destruct Hp as (i & Hi & ->); eauto 6. }
    destruct Ha as [(cn & pn & ap & Hc & Hp & Hap & ->)
                   |[(cn & pn & ap & Hc & Hp & Hap & ->)
                    |(pn & fr & to & Hp & Hfr & Hto & _ & ->)]];
      cbn [Load Unload Fly Action_ precond_pos precond_neg effect_add
           effect_rem fst snd];
      repeat split; intros x Hx; simpl in Hx;
      repeat (destruct Hx as [<-|Hx]; [auto|]); contradiction.
  - intros x Hx.
    change (goal self) with (goal_of (formulate_lists airports c p)) in Hx.
    apply In_formulate_goal in Hx.
    destruct Hx as (i & a & Hin & Hlt & ->).
    apply In_formulate_state_map; right.
    exists a, (List.length airports - i - 1); split;
      [exact (nth_error_In _ _ Hin) | auto].
Qed.

(** *** Size and distinctness of the generated state map *)

Lemma cargo_names_length (c : nat) : List.length (cargo_names c) = c.
Proof. unfold cargo_names; rewrite length_map; apply length_seq. Qed.

Lemma plane_names_length (p : nat) : List.length (plane_names p) = p.
Proof. unfold plane_names; rewrite length_map; apply length_seq. Qed.

Lemma cargo_names_NoDup (c : nat) : NoDup (cargo_names c).
Proof.
  apply NoDup_map_on; [|apply seq_NoDup].
  intros i j _ _; apply cargo_name_inj.
Qed.

Lemma plane_names_NoDup (p : nat) : NoDup (plane_names p).
Proof.
  apply NoDup_map_on; [|apply seq_NoDup].
  intros i j _ _; apply plane_name_inj.
Qed.

Lemma flat_map_length_split {A : Type} (f g : A -> list Expr) (l : list A)
  (k : nat) :
  (forall x, List.length (f x) + List.length (g x) = k) ->
  List.length (flat_map f l) + List.length (flat_map g l)
  = List.length l * k.
Proof.
  intros H; induction l as [|x l IH]; simpl; [reflexivity|].
  rewrite !length_app; specialize (H x); lia.
Qed.

Lemma airport_lists_length (cargoes planes : list string)
  (iaa : nat * string) :
  List.length (airport_pos cargoes planes iaa)
  + List.length (airport_neg cargoes planes iaa)
  = List.length cargoes + List.length planes.
Proof.
  unfold airport_pos, airport_neg; rewrite !length_app.
  pose proof (flat_map_length_split
                (cargo_pos (fst iaa) (snd iaa))
                (cargo_neg (fst iaa) (snd iaa)) (enumerate cargoes) 1) as Hc.
  pose proof (flat_map_length_split
                (plane_pos (fst iaa) (snd iaa))
                (plane_neg (fst iaa) (snd iaa)) (enumerate planes) 1) as Hp.
  rewrite enumerate_length in Hc, Hp.
  assert (Hc1 : forall x, List.length (cargo_pos (fst iaa) (snd iaa) x)
                          + List.length (cargo_neg (fst iaa) (snd iaa) x)
                          = 1).
  { intros x; unfold cargo_pos, cargo_neg.
    destruct (Nat.eqb (fst iaa) (fst x)); reflexivity. }
  assert (Hp1 : forall x, List.length (plane_pos (fst iaa) (snd iaa) x)
                          + List.length (plane_neg (fst iaa) (snd iaa) x)
                          = 1).
  { intros x; unfold plane_pos, plane_neg.
    destruct (Nat.eqb (fst x) (fst iaa)); reflexivity. }
  specialize (Hc Hc1); specialize (Hp Hp1); lia.
Qed.

(** A loop that appends at most one literal per iteration. *)
Lemma NoDup_flat_map_literal {A : Type} (f : A -> list Expr)
  (lit : A -> Expr) (l : list A) :
  (forall x, f x = [lit x] \/ f x = []) ->
  (forall x y, In x l -> In y l -> lit x = lit y -> x = y) ->
  NoDup l -> NoDup (flat_map f l).
Proof.
  intros Hf Hinj ND; apply NoDup_flat_map_on; [| |exact ND].
  - intros x _; destruct (Hf x) as [-> | ->]; repeat constructor; auto.
  - intros x y z Hx Hy Hzx Hzy.
    destruct (Hf x) as [Ex|Ex]; rewrite Ex in Hzx; [|contradiction].
    destruct (Hf y) as [Ey|Ey]; rewrite Ey in Hzy; [|contradiction].
    destruct Hzx as [<-|[]]; destruct Hzy as [H|[]].
    apply Hinj; auto.
Qed.

Lemma At_inj (x y a b : string) : At x a = At y b -> x = y /\ a = b.
Proof. intros H; inversion H; auto. Qed.

Lemma At_names_inj (names : list string) (a : string)
  (x y : nat * string) :
  NoDup names ->
  In x (enumerate names) -> In y (enumerate names) ->
  At (snd x) a = At (snd y) a -> x = y.
Proof.
  destruct x as [i n], y as [j m]; cbn [snd]; intros ND Hx Hy H.
  inversion H; subst m.
  rewrite (enumerate_same_value names i j n ND Hx Hy); reflexivity.
Qed.

Lemma airport_pos_NoDup (c p : nat) (iaa : nat * string) :
  NoDup (airport_pos (cargo_names c) (plane_names p) iaa).
Proof.
  destruct iaa as [ia a]; unfold airport_pos; cbn [fst snd].
  apply NoDup_app.
  - apply (NoDup_flat_map_literal _ (fun icc => At (snd icc) a));
      [| |apply enumerate_NoDup].
    + intros x; unfold cargo_pos; destruct (Nat.eqb ia (fst x)); auto.
    + intros x y; apply At_names_inj, cargo_names_NoDup.
  - apply (NoDup_flat_map_literal _ (fun ipp => At (snd ipp) a));
      [| |apply enumerate_NoDup].
    + intros x; unfold plane_pos; destruct (Nat.eqb (fst x) ia); auto.
    + intros x y; apply At_names_inj, plane_names_NoDup.
  - intros x Hc Hp.
    pose proof (proj1 (In_airport_pos c 0 ia a x)) as H1.
    pose proof (proj1 (In_airport_pos 0 p ia a x)) as H2.
    unfold airport_pos in H1, H2; cbn [fst snd] in H1, H2.
    rewrite in_app_iff in H1, H2.
    destruct (H1 (or_introl Hc)) as [[_ ->]|[F _]]; [|lia].
    destruct (H2 (or_intror Hp)) as [[F _]|[_ H]]; [lia|].
    inversion H as [H']; exact (cargo_name_not_plane _ _ H').
Qed.

Lemma airport_neg_NoDup (c p : nat) (iaa : nat * string) :
  NoDup (airport_neg (cargo_names c) (plane_names p) iaa).
Proof.
  destruct iaa as [ia a]; unfold airport_neg; cbn [fst snd].
  apply NoDup_app.
  - apply (NoDup_flat_map_literal _ (fun icc => At (snd icc) a));
      [| |apply enumerate_NoDup].
    + intros x; unfold cargo_neg; destruct (Nat.eqb ia (fst x)); auto.
    + intros x y; apply At_names_inj, cargo_names_NoDup.
  - apply (NoDup_flat_map_literal _ (fun ipp => At (snd ipp) a));
      [| |apply enumerate_NoDup].
    + intros x; unfold plane_neg; destruct (Nat.eqb (fst x) ia); auto.
    + intros x y; apply At_names_inj, plane_names_NoDup.
  - intros x Hc Hp.
    pose proof (proj1 (In_airport_neg c 0 ia a x)) as H1.
    pose proof (proj1 (In_airport_neg 0 p ia a x)) as H2.
    unfold airport_neg in H1, H2; cbn [fst snd] in H1, H2.
    rewrite in_app_iff in H1, H2.
    destruct (H1 (or_introl Hc)) as (k & _ & [[_ ->]|[F _]]); [|lia].
    destruct (H2 (or_intror Hp)) as (k' & _ & [[F _]|[_ H]]); [lia|].
    inversion H as [H']; exact (cargo_name_not_plane _ _ H').
Qed.

Lemma in_literals_NoDup (c p : nat) :
  NoDup (in_literals (cargo_names c) (plane_names p)).
Proof.
  unfold in_literals; apply NoDup_flat_map_on; [| |apply cargo_names_NoDup].
  - intros cn _; apply NoDup_map_on; [|apply plane_names_NoDup].
    intros x y _ _ H; inversion H; reflexivity.
  - intros x y z _ _ Hx Hy; apply in_map_iff in Hx, Hy.
    destruct Hx as (u & <- & _), Hy as (v & H & _).
    inversion H; reflexivity.
Qed.

Lemma formulate_pos_NoDup (airports : list string) (c p : nat) :
  NoDup airports -> NoDup (pos_ (formulate_lists airports c p)).
Proof.
  intros ND; rewrite formulate_lists_closed; cbn [pos_].
  apply NoDup_flat_map_on; [| |apply enumerate_NoDup].
  - intros iaa _; apply airport_pos_NoDup.
  - intros [i a] [j b] z Hi Hj Hz Hz'.
    apply In_airport_pos in Hz, Hz'.
    assert (a = b) by
      (destruct Hz as [[_ ->]|[_ ->]], Hz' as [[_ H]|[_ H]];
       inversion H; reflexivity).
    subst b; rewrite (enumerate_same_value airports i j a ND Hi Hj).
    reflexivity.
Qed.

Lemma formulate_neg_NoDup (airports : list string) (c p : nat) :
  NoDup airports -> NoDup (neg_ (formulate_lists airports c p)).
Proof.
  intros ND; rewrite formulate_lists_closed; cbn [neg_].
  apply NoDup_app; [apply in_literals_NoDup| |].
  - apply NoDup_flat_map_on; [| |apply enumerate_NoDup].
    + intros iaa _; apply airport_neg_NoDup.
    + intros [i a] [j b] z Hi Hj Hz Hz'.
      apply In_airport_neg in Hz, Hz'.
      destruct Hz as (k & _ & Hz), Hz' as (k' & _ & Hz').
      assert (a = b) by
        (destruct Hz as [[_ ->]|[_ ->]], Hz' as [[_ H]|[_ H]];
         inversion H; reflexivity).
      subst b; rewrite (enumerate_same_value airports i j a ND Hi Hj).
      reflexivity.
  - intros x Hx Hy; apply In_in_literals in Hx.
    destruct Hx as (i & j & _ & _ & ->).
    apply in_flat_map in Hy; destruct Hy as ([ia a] & _ & Hy).
    apply In_airport_neg in Hy.
    destruct Hy as (k & _ & [[_ H]|[_ H]]); discriminate H.
Qed.

Lemma formulate_pos_neg_disjoint (airports : list string) (c p : nat)
  (x : Expr) :
  NoDup airports ->
  In x (pos_ (formulate_lists airports c p)) ->
  ~ In x (neg_ (formulate_lists airports c p)).
Proof.
  intros ND Hp Hn.
  apply In_formulate_pos in Hp; apply In_formulate_neg in Hn.
  destruct Hp as (i & a & Hi & Hp).
  destruct Hn as [(u & v & _ & _ & ->)|(j & b & k & Hj & N & Hn)].
  - destruct Hp as [[_ H]|[_ H]]; discriminate H.
  - assert (Hab : a = b /\ k = i).
    { destruct Hp as [[_ ->]|[_ ->]], Hn as [[_ H]|[_ H]];
        apply At_inj in H; destruct H as [Hn' Ha'].
      - apply cargo_name_inj in Hn'; auto.
      - exfalso; exact (cargo_name_not_plane _ _ Hn').
      - exfalso; symmetry in Hn'; exact (cargo_name_not_plane _ _ Hn').
      - apply plane_name_inj in Hn'; auto. }
    destruct Hab as [<- ->]; apply N.
    apply (proj1 (NoDup_nth_error airports) ND); [|congruence].
    apply nth_error_Some; congruence.
Qed.

(** X16.  The state map of [formulate_problem(airports, c, p)] has
    [c*p + n*(c+p)] literals for [n] airports, and when no airport is listed
    twice it has no repeated literal. *)
Theorem formulate_problem_state_map (airports : list string) (c p : nat) :
  let self := formulate_problem airports c p in
  List.length (state_map self)
  = c * p + List.length airports * (c + p)
  /\ (NoDup airports -> NoDup (state_map self)).
Proof.
  intros self.
  change (state_map self)
    with (pos_ (formulate_lists airports c p)
          ++ neg_ (formulate_lists airports c p)).
  split.
  - rewrite formulate_lists_closed; cbn [pos_ neg_]; rewrite !length_app.
    pose proof (flat_map_length_split
                  (airport_pos (cargo_names c) (plane_names p))
                  (airport_neg (cargo_names c) (plane_names p))
                  (enumerate airports) (c + p)) as H.
    rewrite enumerate_length in H.
    assert (Hk : forall x,
               List.length (airport_pos (cargo_names c) (plane_names p) x)
               + List.length (airport_neg (cargo_names c) (plane_names p) x)
               = c + p).
    { intros x; rewrite airport_lists_length, cargo_names_length,
        plane_names_length; reflexivity. }
    specialize (H Hk).
    assert (Hin : List.length (in_literals (cargo_names c) (plane_names p))
                  = c * p).
    { unfold in_literals.
      rewrite (flat_map_length_const _ _ p), cargo_names_length;
        [reflexivity|].
      intros cn _; rewrite length_map; apply plane_names_length. }
    lia.
  - intros ND; apply NoDup_app.
    + apply formulate_pos_NoDup, ND.
    + apply formulate_neg_NoDup, ND.
    + intros x; apply formulate_pos_neg_disjoint, ND.
Qed.

(** X17.  A generated problem meets the conditions the transition model
    relies on: no cargo or plane is named twice, no cargo has the name of a
    plane, no goal literal is repeated, and when no airport is listed twice
    no plane is at two airports in the initial state. *)
Theorem formulate_problem_well_formed (airports : list string) (c p : nat) :
  let self := formulate_problem airports c p in
  NoDup (cargos self)
  /\ NoDup (planes self)
  /\ (forall x, In x (cargos self) -> ~ In x (planes self))
  /\ NoDup (goal self)
  /\ (NoDup airports -> planes_in_one_place self (initial_state_TF self)).
Proof.
  intros self; split; [apply cargo_names_NoDup|].
  split; [apply plane_names_NoDup|]; split; [|split].
  - intros x Hc Hp.
    apply In_cargo_names in Hc; apply In_plane_names in Hp.
    destruct Hc as (i & _ & ->), Hp as (j & _ & H).
    exact (cargo_name_not_plane _ _ H).
  - change (goal self) with (goal_of (formulate_lists airports c p)).
    rewrite formulate_lists_closed; cbn [goal_of].
    apply NoDup_flat_map_on; [| |apply enumerate_NoDup].
    + intros [ia a] _; unfold airport_goal; cbn [fst snd].
      apply (NoDup_flat_map_literal _ (fun icc => At (snd icc) a));
        [| |apply enumerate_NoDup].
      * intros x; unfold cargo_goal.
        destruct (Nat.eqb (fst x) (List.length airports - ia - 1)); auto.
      * intros x y; apply At_names_inj, cargo_names_NoDup.
    + intros [i a] [j b] z Hi Hj Hz Hz'.
      apply In_airport_goal in Hz, Hz'.
      destruct Hz as [_ ->], Hz' as [_ H].
      apply At_inj in H; destruct H as [Hn Ha]; subst b.
      apply cargo_name_inj in Hn.
      apply In_enumerate in Hi, Hj.
      assert (i < List.length airports)
        by (apply nth_error_Some; congruence).
      assert (j < List.length airports)
        by (apply nth_error_Some; congruence).
      f_equal; lia.
  - intros ND q a1 a2 Hq H1 H2.
    pose proof (formulate_problem_placement_aux airports c p) as Hpl.
    apply Hpl in H1, H2.
    destruct H1 as (i & a & Hi & H1), H2 as (j & b & Hj & H2).
    apply In_plane_names in Hq; destruct Hq as (k & _ & ->).
    assert (E1 : i = k /\ a = a1).
    { destruct H1 as [[_ H]|[_ H]]; apply At_inj in H;
        destruct H as [Hn Ha].
      - exfalso; symmetry in Hn; exact (cargo_name_not_plane _ _ Hn).
      - apply plane_name_inj in Hn; auto. }
    assert (E2 : j = k /\ b = a2).
    { destruct H2 as [[_ H]|[_ H]]; apply At_inj in H;
        destruct H as [Hn Ha].
      - exfalso; symmetry in Hn; exact (cargo_name_not_plane _ _ Hn).
      - apply plane_name_inj in Hn; auto. }
    destruct E1 as [-> <-], E2 as [-> <-]; congruence.
Qed.


Lemma formulate_problem_state_map_witness :
  List.length (state_map air_cargo_p2) = 3 * 3 + 3 * (3 + 3)
  /\ NoDup (state_map air_cargo_p2).
Proof.
  destruct (formulate_problem_state_map ["SFO"; "JFK"; "ATL"] 3 3)
    as [HL HN].
  split; [exact HL|]; apply HN.
  repeat constructor; simpl; intuition discriminate.
Defined.

Lemma formulate_problem_well_formed_witness :
  NoDup (cargos air_cargo_p3)
  /\ NoDup (planes air_cargo_p3)
  /\ (forall x, In x (cargos air_cargo_p3) -> ~ In x (planes air_cargo_p3))
  /\ NoDup (goal air_cargo_p3)
  /\ planes_in_one_place air_cargo_p3 (initial_state_TF air_cargo_p3).
Proof.
  destruct (formulate_problem_well_formed ["SFO"; "JFK"; "ATL"; "ORD"] 4 2)
    as (H1 & H2 & H3 & H4 & H5).
  repeat split; try assumption.
  apply H5; repeat constructor; simpl; intuition discriminate.
Defined.


(** ** Cargos are in one place, and stay somewhere *)










(** ** The inverse action is applicable *)

Lemma actions_Ok (self : AirCargoProblem) (s : list bool) :
  List.length s = List.length (state_map self) ->
  exists acts, actions self s = Ok acts.
Proof.
  intros E; unfold actions; rewrite (decode_state_Ok _ _ E); cbn [bind].
  eexists; reflexivity.
Qed.

(** Membership in [actions] in terms of what is true and false. *)
Lemma actions_In_holds (self : AirCargoProblem) (s : list bool)
  (acts : list Action) (a : Action) :
  actions self s = Ok acts ->
  In a acts <->
  In a (actions_list self)
  /\ (forall x, In x (precond_neg a) -> fails self s x)
  /\ (forall x, In x (precond_pos a) -> holds self s x).
Proof.
  intros H; pose proof (actions_length _ _ _ H) as E.
  rewrite (actions_In_iff _ _ _ _ H); unfold incl.
  split; intros (Hl & Hn & Hp); (split; [exact Hl|]); split; intros x Hx.
  - apply (fails_iff _ _ _ E), Hn, Hx.
  - apply (holds_iff _ _ _ E), Hp, Hx.
  - apply (fails_iff _ _ _ E), Hn, Hx.
  - apply (holds_iff _ _ _ E), Hp, Hx.
Qed.

(** X19.  In a constructed problem an applicable action can be undone by
    an applicable one: after an applicable [Load(c, p, a)] with [c] and [p]
    different names, [Unload(c, p, a)] is applicable; after an applicable
    [Unload(c, p, a)], [Load(c, p, a)] is; and after an applicable
    [Fly(p, from, to)], [Fly(p, to, from)] is, provided the state map has the
    literal [At(p, to)]. *)
Theorem inverse_action_applicable (cargos planes airports : list string)
  (initial : FluentState) (goal_ : list Expr) (s : list bool)
  (acts : list Action) :
  let self := AirCargoProblem_ cargos planes airports initial goal_ in
  encoded_over (state_map self) s ->
  actions self s = Ok acts ->
  (forall c p ap s',
      In (Load c p ap) acts -> c <> p ->
      result self s (Load c p ap) = Ok s' ->
      exists acts', actions self s' = Ok acts'
                    /\ In (Unload c p ap) acts')
  /\ (forall c p ap s',
        In (Unload c p ap) acts ->
        result self s (Unload c p ap) = Ok s' ->
        exists acts', actions self s' = Ok acts'
                      /\ In (Load c p ap) acts')
  /\ (forall p fr to s',
        In (Fly p fr to) acts ->
        In (At p to) (state_map self) ->
        result self s (Fly p fr to) = Ok s' ->
        exists acts', actions self s' = Ok acts'
                      /\ In (Fly p to fr) acts').
Proof.
  intros self Hs Hacts.
  assert (Hobj : forall a, In a acts ->
                           In a (get_actions self)
                           /\ (forall x, In x (precond_neg a) ->
                                         fails self s x)
                           /\ (forall x, In x (precond_pos a) ->
                                         holds self s x)).
  { intros a Ha; apply (actions_In_holds _ _ _ _ Hacts) in Ha; exact Ha. }
  assert (Hnext : forall s' a b,
             result self s a = Ok s' ->
             In b (get_actions self) ->
             (forall x, In x (precond_neg b) -> fails self s' x) ->
             (forall x, In x (precond_pos b) -> holds self s' x) ->
             exists acts', actions self s' = Ok acts' /\ In b acts').
  { intros s' a b R Hb Hn Hp.
    destruct (result_length _ _ _ _ R) as [_ E'].
    destruct (actions_Ok self s' E') as (acts' & Hacts').
    exists acts'; split; [exact Hacts'|].
    apply (actions_In_holds _ _ _ _ Hacts'); auto. }
  split; [|split].
  - intros c p ap s' Hin Ncp R.
    destruct (Hobj _ Hin) as (Hg & Hn & Hp).
    apply (Hnext s' _ _ R).
    + apply In_get_actions in Hg; apply In_get_actions.
      destruct Hg as [(c0 & p0 & a0 & Hc & Hpl & Ha & Heq)
                     |[(c0 & p0 & a0 & _ & _ & _ & Heq)
                      |(p0 & fr & to & _ & _ & _ & _ & Heq)]];
        try discriminate Heq.
      apply Load_inj in Heq; destruct Heq as (-> & -> & ->).
      right; left; eauto 10.
    + intros x [<-|[]]; apply (result_fails _ _ _ _ _ R); simpl.
      pose proof (holds_in_map _ _ _ (Hp (At c ap) (or_intror (or_introl eq_refl)))).
      intuition discriminate.
    + intros x [<-|[<-|[]]]; apply (result_holds _ _ _ _ _ R); simpl.
      * pose proof (Hn (In_ c p) (or_introl eq_refl)) as Hf.
        destruct Hf as (fs & D & Hf).
        apply decode_state_inv in D as [E ->].
        split; [|auto].
        apply (split_by_flags_cover s _ _ E); auto.
      * pose proof (Hp (At p ap) (or_introl eq_refl)) as Hh.
        split; [exact (holds_in_map _ _ _ Hh)|left].
        split; [exact Hh|].
        intros [H|[]]; apply At_inj in H; destruct H; congruence.
  - intros c p ap s' Hin R.
    destruct (Hobj _ Hin) as (Hg & Hn & Hp).
    apply (Hnext s' _ _ R).
    + apply In_get_actions in Hg; apply In_get_actions.
      destruct Hg as [(c0 & p0 & a0 & _ & _ & _ & Heq)
                     |[(c0 & p0 & a0 & Hc & Hpl & Ha & Heq)
                      |(p0 & fr & to & _ & _ & _ & _ & Heq)]];
        try discriminate Heq.
      apply Unload_inj in Heq; destruct Heq as (-> & -> & ->).
      left; eauto 10.
    + intros x [<-|[]]; apply (result_fails _ _ _ _ _ R); simpl.
      pose proof (holds_in_map _ _ _ (Hp (In_ c p) (or_introl eq_refl))).
      intuition discriminate.
    + intros x [<-|[<-|[]]]; apply (result_holds _ _ _ _ _ R); simpl.
      * pose proof (Hp (At p ap) (or_intror (or_introl eq_refl))) as Hh.
        split; [exact (holds_in_map _ _ _ Hh)|left].
        split; [exact Hh|]; intros [H|[]]; discriminate H.
      * pose proof (Hn (At c ap) (or_introl eq_refl)) as Hf.
        destruct Hf as (fs & D & Hf).
        apply decode_state_inv in D as [E ->].
        split; [|auto].
        apply (split_by_flags_cover s _ _ E); auto.
  - intros p fr to s' Hin Hm R.
    destruct (Hobj _ Hin) as (Hg & Hn & Hp).
    apply (Hnext s' _ _ R).
    + apply In_get_actions in Hg; apply In_get_actions.
      destruct Hg as [(c0 & p0 & a0 & _ & _ & _ & Heq)
                     |[(c0 & p0 & a0 & _ & _ & _ & Heq)
                      |(p0 & fr0 & to0 & Hpl & Hf & Ht & N & Heq)]];
        try discriminate Heq.
      apply Fly_inj in Heq; destruct Heq as (-> & -> & ->).
      right; right; exists p0, to0, fr0; repeat split; auto.
    + intros x [].
    + intros x [<-|[]]; apply (result_holds _ _ _ _ _ R); simpl; auto.
Qed.

Lemma inverse_action_applicable_witness :
  exists acts',
    actions air_cargo_p1
      [false; true; true; true; false; false;
       false; false; true; false; false; false] = Ok acts'
    /\ In (Unload "C1" "P1" "SFO") acts'.
Proof.
  destruct (inverse_action_applicable ["C1"; "C2"] ["P1"; "P2"]
              ["JFK"; "SFO"]
              (mkFluentState
                 [At "C1" "SFO"; At "C2" "JFK"; At "P1" "SFO"; At "P2" "JFK"]
                 [At "C2" "SFO"; In_ "C2" "P1"; In_ "C2" "P2"; At "C1" "JFK";
                  In_ "C1" "P1"; In_ "C1" "P2"; At "P1" "JFK";
                  At "P2" "SFO"])
              [At "C1" "JFK"; At "C2" "SFO"]
              (initial_state_TF air_cargo_p1)
              [Load "C2" "P2" "JFK"; Load "C1" "P1" "SFO";
               Fly "P2" "JFK" "SFO"; Fly "P1" "SFO" "JFK"])
    as (HL & _ & _).
  - eexists; reflexivity.
  - reflexivity.
  - apply (HL "C1" "P1" "SFO").
    + in_explicit_list.
    + discriminate.
    + reflexivity.
Defined.
